(** * betterTimetable: the conflict-free timetable search

    A shallow embedding of the scheduler of [filterCourseList]
    (the file holding [convertTo24Hour], [filterCourseList] and the inline
    [scheduleUnits]) and of its refactoring in
    [src/app/generate/algorithms/recursiveFunctions.tsx]
    ([scheduleUnits], [initializeUnitSchedule],
    [sortActivitiesByCourseOptions], [scheduleActivities],
    [parseCourseTimes], [hasTimeConflict], [scheduleCourse],
    [unscheduleCourse]).

    Conventions of the embedding.
    - A JavaScript string is a [string]; every character is one code unit
      below 256.
    - A JavaScript number that counts things is a [Z]; the products of
      session counts are exact as long as they stay below 2^53.
    - A thrown exception is a value of [exn]; a call that may throw returns
      a [result].
    - The two objects the search mutates in place, the day-keyed index of
      occupied times and the schedule under construction, are the two
      fields of [State], both finite maps keyed by strings. *)

From Stdlib Require Import ZArith Ascii Permutation Sorted Lia.
From Stdlib Require String.
From stdpp Require Import base option list gmap strings fin_maps.

Local Open Scope Z_scope.

(* ===================================================================== *)
(** * Exceptions *)
(* ===================================================================== *)

(** [Error msg] is [new Error(msg)]; [TypeError] is the engine's own
    exception for reading a property of [undefined], calling something that
    is no function, or iterating something that is not iterable. *)
Inductive exn : Type :=
| Error (msg : string)
| TypeError.

Definition result (A : Type) : Type := (exn + A)%type.

#[global] Instance exn_eq_dec : EqDecision exn.
Proof. solve_decision. Defined.

(** The error of [convertTo24Hour]: [`Invalid time format: ${time12h}`]. *)
Definition InvalidTimeFormat (time12h : string) : exn :=
  Error ("Invalid time format: " +:+ time12h).

(* ===================================================================== *)
(** * The JavaScript runtime pieces the code relies on *)
(* ===================================================================== *)

Module JS.

(** ** Characters *)

Definition code (c : ascii) : N := N_of_ascii c.

Definition is_digit (c : ascii) : bool :=
  ((48 <=? code c) && (code c <=? 57))%N.

Definition digit_val (c : ascii) : Z := Z.of_N (code c) - 48.

(** White space and line terminators removed by [String.prototype.trim],
    among the code units below 256: TAB, LF, VT, FF, CR, SP, NBSP. *)
Definition is_space (c : ascii) : bool :=
  let n := code c in
  ((n =? 9) || (n =? 10) || (n =? 11) || (n =? 12) || (n =? 13)
   || (n =? 32) || (n =? 160))%N.

(** [toLowerCase] on one code unit: A-Z, and the Latin-1 capitals
    U+00C0-U+00DE except the multiplication sign U+00D7. *)
Definition to_lower (c : ascii) : ascii :=
  let n := code c in
  if ((65 <=? n) && (n <=? 90))%N then ascii_of_N (n + 32)
  else if ((192 <=? n) && (n <=? 222) && negb (n =? 215))%N
       then ascii_of_N (n + 32)
  else c.

(** ** Strings as lists of code units *)

Definition chars (s : string) : list ascii := String.list_ascii_of_string s.
Definition str (l : list ascii) : string := String.string_of_list_ascii l.

Definition toLowerCase (s : string) : string := str (map to_lower (chars s)).

Fixpoint drop_spaces (l : list ascii) : list ascii :=
  match l with
  | c :: l' => if is_space c then drop_spaces l' else l
  | [] => []
  end.

(** [s.trim()] *)
Definition trim (s : string) : string :=
  str (rev (drop_spaces (rev (drop_spaces (chars s))))).

Fixpoint starts_with (p l : list ascii) : bool :=
  match p, l with
  | [], _ => true
  | a :: p', b :: l' => if Ascii.eqb a b then starts_with p' l' else false
  | _ :: _, [] => false
  end.

(** [s.split(sep)] for a non-empty separator: the pieces between the
    leftmost, non-overlapping occurrences of [sep].  [skip] counts the
    code units of an occurrence that are still to be passed over, [acc] is
    the current piece, reversed. *)
Fixpoint split_go (sep : list ascii) (skip : nat) (acc l : list ascii)
  : list string :=
  match l with
  | [] => [str (rev acc)]
  | c :: l' =>
      match skip with
      | S n => split_go sep n acc l'
      | O =>
          if starts_with sep l
          then str (rev acc) :: split_go sep (length sep - 1) [] l'
          else split_go sep 0 (c :: acc) l'
      end
  end.

Definition split (sep s : string) : list string :=
  split_go (chars sep) 0 [] (chars s).

(** ** Numbers *)

(** [parseInt(s, 10)] on a string made of decimal digits only. *)
Definition parseInt10 (l : list ascii) : Z :=
  fold_left (fun acc c => 10 * acc + digit_val c) l 0.

Definition digit_char (d : Z) : ascii := ascii_of_N (Z.to_N (d + 48)).

(** The decimal digits of a non-negative number, most significant first.
    [fuel] bounds the number of digits. *)
Fixpoint digits_go (fuel : nat) (n : Z) (acc : list ascii) : list ascii :=
  match fuel with
  | O => acc
  | S f =>
      let acc' := digit_char (n mod 10) :: acc in
      if n / 10 =? 0 then acc' else digits_go f (n / 10) acc'
  end.

(** [n.toString()] for a non-negative integer. *)
Definition toString (n : Z) : string :=
  str (digits_go (S (Z.to_nat (Z.log2 n))) n []).

(** [s.padStart(width, "0")] *)
Definition padStart0 (width : nat) (s : string) : string :=
  str (repeat "0"%char (width - String.length s)) +:+ s.

(** ** Dates *)

(** A [Date] built by the scheduler.  All of them are parsed from texts
    [1970-01-01T<time>] without a zone, so they are local times of one
    reference day: a valid one is its number of milliseconds after the
    local midnight of that day, an invalid one (time value NaN) is
    [InvalidDate]. *)
Inductive Date : Type :=
| InvalidDate
| Instant (ms : Z).

#[global] Instance Date_eq_dec : EqDecision Date.
Proof. solve_decision. Defined.

(** [a < b] and [a > b] on dates compare the time values as numbers; a
    comparison with NaN is false. *)
Definition lt (a b : Date) : bool :=
  match a, b with
  | Instant x, Instant y => x <? y
  | _, _ => false
  end.

Definition gt (a b : Date) : bool :=
  match a, b with
  | Instant x, Instant y => x >? y
  | _, _ => false
  end.

Definition two_digits (a b : ascii) : option Z :=
  if is_digit a && is_digit b then Some (10 * digit_val a + digit_val b)
  else None.

(** [new Date(`1970-01-01T${t}`)]: the time part must read [HH:mm:ss] with
    two digits each, hours 00-23, minutes and seconds 00-59; hour 24 is
    accepted with minutes and seconds 00 and names the next midnight. *)
Definition newDate_1970 (t : string) : Date :=
  match chars t with
  | [h1; h2; c1; m1; m2; c2; s1; s2] =>
      if Ascii.eqb c1 ":" && Ascii.eqb c2 ":" then
        match two_digits h1 h2, two_digits m1 m2, two_digits s1 s2 with
        | Some h, Some m, Some s =>
            if ((h <=? 23) && (m <=? 59) && (s <=? 59))
               || ((h =? 24) && (m =? 0) && (s =? 0))
            then Instant (((h * 60 + m) * 60 + s) * 1000)
            else InvalidDate
        | _, _, _ => InvalidDate
        end
      else InvalidDate
  | _ => InvalidDate
  end.

End JS.

(* ===================================================================== *)
(** * [convertTo24Hour] *)
(* ===================================================================== *)

(** [(am|pm)] under the [i] flag: each letter in either case. *)
Definition is_am_pm (x y : ascii) : bool :=
  (Ascii.eqb x "a" || Ascii.eqb x "A" || Ascii.eqb x "p" || Ascii.eqb x "P")
  && (Ascii.eqb y "m" || Ascii.eqb y "M").

(** The match of [/^(\d{1,2}):(\d{2})(am|pm)$/i] against a whole string:
    the three captured groups, or [None] when the string does not match. *)
Definition time_regex (s : string) : option (string * string * string) :=
  match JS.chars s with
  | [h1; c; m1; m2; x; y] =>
      if JS.is_digit h1 && Ascii.eqb c ":" && JS.is_digit m1 && JS.is_digit m2
         && is_am_pm x y
      then Some (JS.str [h1], JS.str [m1; m2], JS.str [x; y]) else None
  | [h1; h2; c; m1; m2; x; y] =>
      if JS.is_digit h1 && JS.is_digit h2 && Ascii.eqb c ":"
         && JS.is_digit m1 && JS.is_digit m2 && is_am_pm x y
      then Some (JS.str [h1; h2], JS.str [m1; m2], JS.str [x; y]) else None
  | _ => None
  end.

Definition convertTo24Hour (time12h : string) : result string :=
  match time_regex (JS.trim time12h) with
  | None => inl (InvalidTimeFormat time12h)
  | Some (hourStr, minuteStr, modifier) =>
      let hours := JS.parseInt10 (JS.chars hourStr) in
      let minutes := JS.parseInt10 (JS.chars minuteStr) in
      let hours :=
        if String.eqb (JS.toLowerCase modifier) "pm" && negb (hours =? 12)
        then hours + 12
        else if String.eqb (JS.toLowerCase modifier) "am" && (hours =? 12)
             then 0
             else hours in
      let hoursStr := JS.padStart0 2 (JS.toString hours) in
      let minutesStr := JS.padStart0 2 (JS.toString minutes) in
      inr (hoursStr +:+ ":" +:+ minutesStr +:+ ":00")
  end.

(* ===================================================================== *)
(** * Data model *)
(* ===================================================================== *)

(** [interface Course]: one timetabled session. *)
Module Course.
Record t : Type := {
  id : string;
  unitCode : string;
  unitName : string;
  classType : string;
  activity : string;
  day : string;
  time : string;
  room : string;
  teachingStaff : string
}.
#[global] Instance course_eq_dec : EqDecision t.
Proof. solve_decision. Defined.
End Course.

(** [interface UnitData] *)
Module UnitData.
Record t : Type := { unitName : string; courses : list Course.t }.
End UnitData.

(** [interface CourseList]: an object from unit codes to unit data, given
    by its own properties in the order they were created; the keys of an
    object are pairwise distinct ([CourseList_wf]). *)
Abbreviation CourseList := (list (string * UnitData.t)).

Definition CourseList_wf (courseList : CourseList) : Prop :=
  NoDup (courseList.*1).

(** [interface ScheduledTime] *)
Module ScheduledTime.
Record t : Type := {
  start : JS.Date;
  end_ : JS.Date;
  unitCode : string;
  activity : string
}.
#[global] Instance scheduledTime_eq_dec : EqDecision t.
Proof. solve_decision. Defined.
End ScheduledTime.

(** The elements of the [activities] array of a unit. *)
Module Activity.
Record t : Type := { activityType : string; courses : list Course.t }.
End Activity.

(** The elements of the [units] array. *)
Module Unit.
Record t : Type := {
  unitCode : string;
  unitName : string;
  activities : list Activity.t
}.
End Unit.

(** The values of a [FilteredCourseList]. *)
Module Entry.
Record t : Type := { unitName : string; courses : list Course.t }.
#[global] Instance entry_eq_dec : EqDecision t.
Proof. solve_decision. Defined.
End Entry.

(** [interface CourseTimes] and [interface FilteredCourseList]. *)
Abbreviation CourseTimes := (gmap string (list ScheduledTime.t)).
Abbreviation FilteredCourseList := (gmap string Entry.t).

(** The two objects every call of the search shares and mutates. *)
Record State : Type := {
  scheduledTimesPerDay : CourseTimes;
  finalSchedule : FilteredCourseList
}.

#[global] Instance State_eq_dec : EqDecision State.
Proof. solve_decision. Defined.

(* ===================================================================== *)
(** * Objects and arrays *)
(* ===================================================================== *)

(** [arr.sort(cmp)] is stable and, for a comparator that orders by a key,
    its result is the one of any stable sort: here by insertion from the
    right, an element moving behind the ones it compares greater than. *)
Section ArraySort.
Context {A : Type} (cmp : A -> A -> Z).

Fixpoint sort_insert (x : A) (l : list A) : list A :=
  match l with
  | [] => [x]
  | y :: l' => if cmp x y >? 0 then y :: sort_insert x l' else x :: l
  end.

Fixpoint Array_sort (l : list A) : list A :=
  match l with
  | [] => []
  | x :: l' => sort_insert x (Array_sort l')
  end.
End ArraySort.

(** A property key that is an array index: the canonical decimal text of
    an integer from 0 to 2^32 - 2. *)
Definition array_index (k : string) : option Z :=
  match JS.chars k with
  | [] => None
  | c :: rest =>
      if forallb JS.is_digit (c :: rest)
         && (negb (Ascii.eqb c "0") || (length rest =? 0)%nat)
         && (length (c :: rest) <=? 10)%nat
      then let n := JS.parseInt10 (c :: rest) in
           if n <=? 4294967294 then Some n else None
      else None
  end.

(** [Object.entries(o)]: the properties whose keys are array indices come
    first, in ascending numeric order, then the others in the order they
    were created. *)
Definition Object_entries {V : Type} (o : list (string * V))
  : list (string * V) :=
  Array_sort
    (fun a b => default 0 (array_index a.1) - default 0 (array_index b.1))
    (filter (fun kv => is_Some (array_index kv.1)) o)
  ++ filter (fun kv => ¬ is_Some (array_index kv.1)) o.

(** The property names every plain object inherits from
    [Object.prototype]; reading one of them from an object that has no own
    property of that name yields a function or an object, never an array. *)
Definition Object_prototype_keys : list string :=
  ["constructor"; "__defineGetter__"; "__defineSetter__"; "hasOwnProperty";
   "__lookupGetter__"; "__lookupSetter__"; "isPrototypeOf";
   "propertyIsEnumerable"; "toString"; "valueOf"; "__proto__";
   "toLocaleString"].

(* ===================================================================== *)
(** * Preprocessing of [filterCourseList] *)
(* ===================================================================== *)

(** One step of the [reduce] that groups the courses of a unit:
    [(groups[course.activity] ||= []).push(course)].  A tag that names an
    inherited member of the empty object finds that member instead of an
    array, and the call of its missing [push] throws. *)
Fixpoint push_group (groups : list (string * list Course.t))
    (course : Course.t) : option (list (string * list Course.t)) :=
  match groups with
  | [] => None
  | (k, cs) :: groups' =>
      if String.eqb k (Course.activity course)
      then Some ((k, cs ++ [course]) :: groups')
      else cons (k, cs) <$> push_group groups' course
  end.

Definition group_step (acc : result (list (string * list Course.t)))
    (course : Course.t) : result (list (string * list Course.t)) :=
  match acc with
  | inl e => inl e
  | inr groups =>
      match push_group groups course with
      | Some groups' => inr groups'
      | None =>
          if bool_decide (Course.activity course ∈ Object_prototype_keys)
          then inl TypeError
          else inr (groups ++ [(Course.activity course, [course])])
      end
  end.

Definition activityGroups (courses : list Course.t)
  : result (list (string * list Course.t)) :=
  fold_left group_step courses (inr []).

Definition buildUnit (entry : string * UnitData.t) : result Unit.t :=
  match activityGroups (UnitData.courses entry.2) with
  | inl e => inl e
  | inr groups =>
      inr {| Unit.unitCode := entry.1;
             Unit.unitName := UnitData.unitName entry.2;
             Unit.activities :=
               map (fun g => {| Activity.activityType := g.1;
                                Activity.courses := g.2 |})
                   (Object_entries groups) |}
  end.

(** [Object.entries(courseList).map(...)]: the callbacks run in order and
    the first one that throws ends the call. *)
Fixpoint buildUnits (entries : list (string * UnitData.t))
  : result (list Unit.t) :=
  match entries with
  | [] => inr []
  | entry :: entries' =>
      match buildUnit entry with
      | inl e => inl e
      | inr u =>
          match buildUnits entries' with
          | inl e => inl e
          | inr us => inr (u :: us)
          end
      end
  end.

(** [activities.reduce((acc, activity) => acc * activity.courses.length, 1)] *)
Definition optionCount (u : Unit.t) : Z :=
  fold_left (fun acc activity =>
               acc * Z.of_nat (length (Activity.courses activity)))
            (Unit.activities u) 1.

(** [units.sort((unitA, unitB) => optionsB - optionsA)] *)
Definition sortUnits (units : list Unit.t) : list Unit.t :=
  Array_sort (fun unitA unitB => optionCount unitB - optionCount unitA) units.

(** [sortActivitiesByCourseOptions], and the same [sort] call written out
    in the inline [scheduleUnits]. *)
Definition sortActivitiesByCourseOptions (activities : list Activity.t)
  : list Activity.t :=
  Array_sort
    (fun activityA activityB =>
       Z.of_nat (length (Activity.courses activityA))
       - Z.of_nat (length (Activity.courses activityB)))
    activities.

(** The index [filterCourseList] starts from. *)
Definition weekdays : list string := ["MON"; "TUE"; "WED"; "THU"; "FRI"].

Definition initialTimes : CourseTimes :=
  <["MON" := []]> (<["TUE" := []]> (<["WED" := []]> (<["THU" := []]>
    (<["FRI" := []]> ∅)))).

Definition initialState : State :=
  {| scheduledTimesPerDay := initialTimes; finalSchedule := ∅ |}.

(* ===================================================================== *)
(** * The search *)
(* ===================================================================== *)

(** What a run of the search does, in order: the candidates it tries and
    the state after each of its writes. *)
Inductive event : Type :=
| Tried (unitCode : string) (course : Course.t)
| Initialised (st : State)
| Scheduled (st : State)
| Unscheduled (st : State).

#[global] Instance event_eq_dec : EqDecision event.
Proof. solve_decision. Defined.

(** A computation reads and writes the shared [State], may throw, and
    leaves the log of its events; after a throw the state is out of
    reach. *)
Definition M (A : Type) : Type :=
  State -> list event * result (A * State).

Definition ret {A} (a : A) : M A := fun st => ([], inr (a, st)).

Definition bind {A B} (m : M A) (f : A -> M B) : M B := fun st =>
  match m st with
  | (log, inl e) => (log, inl e)
  | (log, inr (a, st')) =>
      let (log', r) := f a st' in (log ++ log', r)
  end.

Definition lift {A} (r : result A) : M A := fun st =>
  ([], match r with inl e => inl e | inr a => inr (a, st) end).

Definition emit (ev : event) : M unit := fun st => ([ev], inr (tt, st)).

(** A write to the shared objects, logged with the state it leaves. *)
Definition update (tag : State -> event) (f : State -> result State)
  : M unit := fun st =>
  match f st with
  | inl e => ([], inl e)
  | inr st' => ([tag st'], inr (tt, st'))
  end.

Notation "'let*' p ':=' m 'in' k" := (bind m (fun p => k))
  (at level 10, p pattern, m at level 100, k at level 200).

(** [initializeUnitSchedule]: the entry of the unit is replaced by a fresh
    one with no courses. *)
Definition initializeUnitSchedule (currentUnit : Unit.t) (st : State)
  : result State :=
  inr {| scheduledTimesPerDay := scheduledTimesPerDay st;
         finalSchedule :=
           <[Unit.unitCode currentUnit :=
               {| Entry.unitName := Unit.unitName currentUnit;
                  Entry.courses := [] |}]> (finalSchedule st) |}.

(** [scheduledTimesPerDay[course.day]], then the [for ... of] over it:
    anything but an array of the index itself cannot be iterated. *)
Definition lookupTimes (day : string) : M (list ScheduledTime.t) :=
  fun st =>
    ([], match scheduledTimesPerDay st !! day with
         | None => inl TypeError
         | Some scheduledTimes => inr (scheduledTimes, st)
         end).

(** [hasTimeConflict], and the same loop written out inline. *)
Fixpoint hasTimeConflict (scheduledTimes : list ScheduledTime.t)
    (startTime endTime : JS.Date) : bool :=
  match scheduledTimes with
  | [] => false
  | scheduled :: rest =>
      if JS.lt startTime (ScheduledTime.end_ scheduled)
         && JS.gt endTime (ScheduledTime.start scheduled)
      then true
      else hasTimeConflict rest startTime endTime
  end.

(** [scheduleCourse].  Its [scheduledTimes] argument is the array the
    index holds for [course.day], named here by that key; the [push] on it
    writes through to the index. *)
Definition scheduleCourse (unitCode : string) (course : Course.t)
    (startTime endTime : JS.Date) (st : State) : result State :=
  match finalSchedule st !! unitCode with
  | None => inl TypeError
  | Some entry =>
      inr {| finalSchedule :=
               <[unitCode :=
                   {| Entry.unitName := Entry.unitName entry;
                      Entry.courses := Entry.courses entry ++ [course] |}]>
                 (finalSchedule st);
             scheduledTimesPerDay :=
               alter (fun scheduledTimes =>
                        scheduledTimes ++
                        [{| ScheduledTime.start := startTime;
                            ScheduledTime.end_ := endTime;
                            ScheduledTime.unitCode := unitCode;
                            ScheduledTime.activity := Course.activity course |}])
                     (Course.day course) (scheduledTimesPerDay st) |}
  end.

(** [unscheduleCourse], with [scheduledTimes] named by its day as above.
    [pop] on an empty array changes nothing. *)
Definition unscheduleCourse (unitCode : string) (day : string) (st : State)
  : result State :=
  match finalSchedule st !! unitCode with
  | None => inl TypeError
  | Some entry =>
      inr {| finalSchedule :=
               <[unitCode :=
                   {| Entry.unitName := Entry.unitName entry;
                      Entry.courses := removelast (Entry.courses entry) |}]>
                 (finalSchedule st);
             scheduledTimesPerDay :=
               alter (@removelast _) day (scheduledTimesPerDay st) |}
  end.

Section Search.

(** [parseCourseTime], which [recursiveFunctions.tsx] imports from
    [./helperFunctions]: the search is defined for any function from the
    text of one side of the range ([None] when [split] found no such side)
    to a date or an exception. *)
Variable parseCourseTime : option string -> result JS.Date.

(** [parseCourseTimes]: start first, then end. *)
Definition parseCourseTimes (timeRange : string)
  : result (JS.Date * JS.Date) :=
  let parts := JS.split " - " timeRange in
  match parseCourseTime (parts !! 0%nat) with
  | inl e => inl e
  | inr startTime =>
      match parseCourseTime (parts !! 1%nat) with
      | inl e => inl e
      | inr endTime => inr (startTime, endTime)
      end
  end.

(** The [for] loop of [scheduleActivities] over the courses of one
    activity; [next] is the call [scheduleActivities(activityIndex + 1)]. *)
Fixpoint tryCourses (next : M bool) (unitCode : string)
    (courses : list Course.t) : M bool :=
  match courses with
  | [] => ret false
  | course :: more =>
      let* _ := emit (Tried unitCode course) in
      let* (startTime, endTime) :=
        lift (parseCourseTimes (Course.time course)) in
      let* scheduledTimes := lookupTimes (Course.day course) in
      if hasTimeConflict scheduledTimes startTime endTime
      then tryCourses next unitCode more
      else
        let* _ :=
          update Scheduled
                 (scheduleCourse unitCode course startTime endTime) in
        let* ok := next in
        if ok : bool then ret true
        else
          let* _ :=
            update Unscheduled
                   (unscheduleCourse unitCode (Course.day course)) in
          tryCourses next unitCode more
  end.

(** [scheduleActivities(activityIndex)] on the activities from
    [activityIndex] on; [nextUnit] is the call [scheduleUnits(unitIndex + 1)]. *)
Fixpoint scheduleActivities (nextUnit : M bool) (unitCode : string)
    (activities : list Activity.t) : M bool :=
  match activities with
  | [] => nextUnit
  | activity :: later =>
      tryCourses (scheduleActivities nextUnit unitCode later) unitCode
                 (Activity.courses activity)
  end.

(** [scheduleUnits(unitIndex)] on the units from [unitIndex] on.  The
    source sorts [currentUnit.activities] in place; sorting a sorted array
    again changes nothing ([sortActivities_idempotent]), so a unit entered
    a second time sees the same order. *)
Fixpoint scheduleUnitsFrom (units : list Unit.t) : M bool :=
  match units with
  | [] => ret true
  | currentUnit :: later =>
      let* _ := update Initialised (initializeUnitSchedule currentUnit) in
      scheduleActivities (scheduleUnitsFrom later) (Unit.unitCode currentUnit)
        (sortActivitiesByCourseOptions (Unit.activities currentUnit))
  end.

Definition scheduleUnits (unitIndex : nat) (units : list Unit.t) : M bool :=
  scheduleUnitsFrom (drop unitIndex units).

End Search.

(** The parsing written out in the inline [scheduleActivities] of
    [filterCourseList]: [new Date(`1970-01-01T${convertTo24Hour(text)}`)];
    with no text at all [convertTo24Hour] fails on [time12h.trim()]. *)
Definition inlineCourseTime (text : option string) : result JS.Date :=
  match text with
  | None => inl TypeError
  | Some time12h =>
      match convertTo24Hour time12h with
      | inl e => inl e
      | inr t => inr (JS.newDate_1970 t)
      end
  end.

(** The end of [filterCourseList]: the schedule when the search succeeded,
    [null] ([None]) when it did not; an exception passes through. *)
Definition verdict (run : list event * result (bool * State))
  : list event * result (option FilteredCourseList) :=
  match run with
  | (log, inl e) => (log, inl e)
  | (log, inr (schedulingSuccess, st)) =>
      (log, inr (if schedulingSuccess : bool
                 then Some (finalSchedule st) else None))
  end.

(** [filterCourseList] with the log of its search.  The five preference
    arguments are only printed. *)
Definition filterCourseList_run (courseList : CourseList)
  : list event * result (option FilteredCourseList) :=
  match buildUnits (Object_entries courseList) with
  | inl e => ([], inl e)
  | inr units =>
      verdict (scheduleUnits inlineCourseTime 0 (sortUnits units) initialState)
  end.

(** [filterCourseList]: the schedule, [null] ([None]), or an exception. *)
Definition filterCourseList (courseList : CourseList)
  : result (option FilteredCourseList) :=
  (filterCourseList_run courseList).2.

(** The events of the search of [filterCourseList]. *)
Definition filterCourseList_log (courseList : CourseList) : list event :=
  (filterCourseList_run courseList).1.

(* ===================================================================== *)
(** * Sample inputs *)
(* ===================================================================== *)

Definition session (code act d t : string) : Course.t :=
  {| Course.id := code +:+ "-" +:+ act +:+ "-" +:+ d +:+ "-" +:+ t;
     Course.unitCode := code; Course.unitName := code;
     Course.classType := act; Course.activity := act;
     Course.day := d; Course.time := t;
     Course.room := "GP Z411"; Course.teachingStaff := "staff" |}.

Definition unit_of (code : string) (cs : list Course.t)
  : string * UnitData.t :=
  (code, {| UnitData.unitName := code; UnitData.courses := cs |}).

Definition trivial_input : CourseList :=
  [unit_of "CS101" [session "CS101" "LEC" "MON" "9:00am - 10:00am"]].

Definition forced_conflict_input : CourseList :=
  [unit_of "CS101" [session "CS101" "LEC" "MON" "9:00am - 10:00am";
                    session "CS101" "TUT" "MON" "9:00am - 10:00am"]].

Definition backtrack_input : CourseList :=
  [unit_of "A" [session "A" "LEC" "MON" "9:00am - 10:00am"];
   unit_of "B" [session "B" "LEC" "MON" "9:30am - 10:30am";
                session "B" "LEC" "MON" "10:00am - 11:00am"]].

Definition malformed_input : CourseList :=
  [unit_of "CS101" [session "CS101" "LEC" "MON" "9:00 - 10:00am"]].

Definition touching_input : CourseList :=
  [unit_of "CS101" [session "CS101" "LEC" "MON" "9:00am - 10:00am";
                    session "CS101" "TUT" "MON" "10:00am - 11:00am"]].

(** A lecture from 1pm to 2pm and a tutorial whose start reads 13 o'clock
    pm. *)
Definition out_of_range_input : CourseList :=
  [unit_of "CS101" [session "CS101" "LEC" "MON" "1:00pm - 2:00pm";
                    session "CS101" "TUT" "MON" "13:00pm - 2:00pm"]].

(** Two units whose only sessions clash. *)
Definition clash_input : CourseList :=
  [unit_of "A" [session "A" "LEC" "MON" "9:00am - 10:00am"];
   unit_of "B" [session "B" "LEC" "MON" "9:00am - 10:00am"]].

(** A lecture with two sessions, the second with a malformed time. *)
Definition unreached_malformed_input : CourseList :=
  [unit_of "CS101" [session "CS101" "LEC" "MON" "9:00am - 10:00am";
                    session "CS101" "LEC" "TUE" "9:00 - 10:00am"]].

(** A lecture on a Saturday; a lecture with a Monday and a Saturday
    session; and a unit whose lecture and practical clash on Monday, with a
    tutorial on Saturday in between. *)
Definition weekend_input : CourseList :=
  [unit_of "CS101" [session "CS101" "LEC" "SAT" "9:00am - 10:00am"]].

Definition unreached_weekend_input : CourseList :=
  [unit_of "CS101" [session "CS101" "LEC" "MON" "9:00am - 10:00am";
                    session "CS101" "LEC" "SAT" "9:00am - 10:00am"]].

Definition weekend_clash_input : CourseList :=
  [unit_of "CS101" [session "CS101" "LEC" "MON" "9:00am - 10:00am";
                    session "CS101" "TUT" "SAT" "9:00am - 10:00am";
                    session "CS101" "PRA" "MON" "9:00am - 10:00am"]].

(** The pieces of the search on [clash_input]: its two sessions, the
    second unit, and the state in which the session of the first unit is
    tried. *)
Definition clash_A : Course.t := session "A" "LEC" "MON" "9:00am - 10:00am".
Definition clash_B : Course.t := session "B" "LEC" "MON" "9:00am - 10:00am".

Definition unit_B : Unit.t :=
  {| Unit.unitCode := "B"; Unit.unitName := "B";
     Unit.activities :=
       [{| Activity.activityType := "LEC"; Activity.courses := [clash_B] |}] |}.

Definition entered_A : State :=
  {| scheduledTimesPerDay := initialTimes;
     finalSchedule :=
       {[ "A" := {| Entry.unitName := "A"; Entry.courses := [] |} ]} |}.

(* ===================================================================== *)
(** * Vocabulary of the specification *)
(* ===================================================================== *)

(** [TimeShape s]: the shape of a clock text as the specification words it,
    one or two digits, a colon, two digits, then am or pm in either case. *)
Definition TimeShape (s : string) : Prop :=
  ∃ (h m : list ascii) (x y : ascii),
    JS.chars s = h ++ [":"%char] ++ m ++ [x; y]
    ∧ (length h = 1 ∨ length h = 2)%nat
    ∧ Forall (fun c => JS.is_digit c = true) h
    ∧ length m = 2%nat
    ∧ Forall (fun c => JS.is_digit c = true) m
    ∧ x ∈ ["a"; "A"; "p"; "P"]%char ∧ y ∈ ["m"; "M"]%char.

(** ** One pass of the candidate loop, as a relation *)

(** [TryRun parse next unitCode courses st log r]: the loop over [courses],
    started in [st], leaves the log [log] and ends with [r].  One rule for
    each way an iteration can go. *)
Inductive TryRun (parse : option string -> result JS.Date) (next : M bool)
    (unitCode : string)
  : list Course.t -> State -> list event -> result (bool * State) -> Prop :=
| try_none st :
    TryRun parse next unitCode [] st [] (inr (false, st))
| try_bad_time course more st e :
    parseCourseTimes parse (Course.time course) = inl e ->
    TryRun parse next unitCode (course :: more) st
           [Tried unitCode course] (inl e)
| try_bad_day course more st startTime endTime :
    parseCourseTimes parse (Course.time course) = inr (startTime, endTime) ->
    scheduledTimesPerDay st !! Course.day course = None ->
    TryRun parse next unitCode (course :: more) st
           [Tried unitCode course] (inl TypeError)
| try_conflict course more st startTime endTime scheduledTimes log r :
    parseCourseTimes parse (Course.time course) = inr (startTime, endTime) ->
    scheduledTimesPerDay st !! Course.day course = Some scheduledTimes ->
    hasTimeConflict scheduledTimes startTime endTime = true ->
    TryRun parse next unitCode more st log r ->
    TryRun parse next unitCode (course :: more) st
           (Tried unitCode course :: log) r
| try_no_entry course more st startTime endTime scheduledTimes e :
    parseCourseTimes parse (Course.time course) = inr (startTime, endTime) ->
    scheduledTimesPerDay st !! Course.day course = Some scheduledTimes ->
    hasTimeConflict scheduledTimes startTime endTime = false ->
    scheduleCourse unitCode course startTime endTime st = inl e ->
    TryRun parse next unitCode (course :: more) st
           [Tried unitCode course] (inl e)
| try_throw course more st startTime endTime scheduledTimes st1 log1 e :
    parseCourseTimes parse (Course.time course) = inr (startTime, endTime) ->
    scheduledTimesPerDay st !! Course.day course = Some scheduledTimes ->
    hasTimeConflict scheduledTimes startTime endTime = false ->
    scheduleCourse unitCode course startTime endTime st = inr st1 ->
    next st1 = (log1, inl e) ->
    TryRun parse next unitCode (course :: more) st
           (Tried unitCode course :: Scheduled st1 :: log1) (inl e)
| try_success course more st startTime endTime scheduledTimes st1 log1 st2 :
    parseCourseTimes parse (Course.time course) = inr (startTime, endTime) ->
    scheduledTimesPerDay st !! Course.day course = Some scheduledTimes ->
    hasTimeConflict scheduledTimes startTime endTime = false ->
    scheduleCourse unitCode course startTime endTime st = inr st1 ->
    next st1 = (log1, inr (true, st2)) ->
    TryRun parse next unitCode (course :: more) st
           (Tried unitCode course :: Scheduled st1 :: log1) (inr (true, st2))
| try_stuck course more st startTime endTime scheduledTimes st1 log1 st2 e :
    parseCourseTimes parse (Course.time course) = inr (startTime, endTime) ->
    scheduledTimesPerDay st !! Course.day course = Some scheduledTimes ->
    hasTimeConflict scheduledTimes startTime endTime = false ->
    scheduleCourse unitCode course startTime endTime st = inr st1 ->
    next st1 = (log1, inr (false, st2)) ->
    unscheduleCourse unitCode (Course.day course) st2 = inl e ->
    TryRun parse next unitCode (course :: more) st
           (Tried unitCode course :: Scheduled st1 :: log1) (inl e)
| try_backtrack course more st startTime endTime scheduledTimes st1 log1 st2
                st3 log r :
    parseCourseTimes parse (Course.time course) = inr (startTime, endTime) ->
    scheduledTimesPerDay st !! Course.day course = Some scheduledTimes ->
    hasTimeConflict scheduledTimes startTime endTime = false ->
    scheduleCourse unitCode course startTime endTime st = inr st1 ->
    next st1 = (log1, inr (false, st2)) ->
    unscheduleCourse unitCode (Course.day course) st2 = inr st3 ->
    TryRun parse next unitCode more st3 log r ->
    TryRun parse next unitCode (course :: more) st
           (Tried unitCode course :: Scheduled st1 :: log1
              ++ Unscheduled st3 :: log) r.

(** ** What a call leaves behind *)

Definition unitCodes (units : list Unit.t) : list string :=
  map Unit.unitCode units.

(** The entry of a unit with the sessions [courses]. *)
Definition entry_of (u : Unit.t) (courses : list Course.t) : Entry.t :=
  {| Entry.unitName := Unit.unitName u; Entry.courses := courses |}.

(** [picks activities courses]: one session out of each activity, in
    order. *)
Definition picks (activities : list Activity.t) (courses : list Course.t)
  : Prop :=
  Forall2 (fun a c => c ∈ Activity.courses a) activities courses.

(** [restored later st st']: [st'] has the index of [st] and the schedule
    of [st], but for entries of the units [later], which may have been
    initialised: such an entry names its unit and has no sessions. *)
Definition restored (later : list Unit.t) (st st' : State) : Prop :=
  scheduledTimesPerDay st' = scheduledTimesPerDay st
  ∧ ∀ k, finalSchedule st' !! k = finalSchedule st !! k
         ∨ ∃ u, u ∈ later ∧ k = Unit.unitCode u
                ∧ finalSchedule st' !! k = Some (entry_of u []).

(** [completed units st st']: [st'] holds, for each of [units], an entry
    with one session out of each of its activities, and the entries of
    [st] under every other key. *)
Definition completed (units : list Unit.t) (st st' : State) : Prop :=
  (∀ k, k ∉ unitCodes units → finalSchedule st' !! k = finalSchedule st !! k)
  ∧ ∀ u, u ∈ units →
         ∃ cs, finalSchedule st' !! Unit.unitCode u = Some (entry_of u cs)
               ∧ picks (sortActivitiesByCourseOptions (Unit.activities u)) cs.

(** [extended later unitCode activities entry st st']: as [completed] for
    the units [later], and the entry of [unitCode], which was [entry] in
    [st], has gained one session out of each of [activities]. *)
Definition extended (later : list Unit.t) (unitCode : string)
    (activities : list Activity.t) (entry : Entry.t) (st st' : State)
  : Prop :=
  (∀ k, k ≠ unitCode → k ∉ unitCodes later →
        finalSchedule st' !! k = finalSchedule st !! k)
  ∧ (∃ cs, finalSchedule st' !! unitCode
           = Some {| Entry.unitName := Entry.unitName entry;
                     Entry.courses := Entry.courses entry ++ cs |}
           ∧ picks activities cs)
  ∧ ∀ u, u ∈ later →
         ∃ cs, finalSchedule st' !! Unit.unitCode u = Some (entry_of u cs)
               ∧ picks (sortActivitiesByCourseOptions (Unit.activities u)) cs.

(** What a call [m] that schedules [activities] of the unit [unitCode],
    then the units [later], leaves behind when it returns. *)
Definition outcome_of (later : list Unit.t) (unitCode : string)
    (activities : list Activity.t) (m : M bool) : Prop :=
  ∀ st entry log r,
    finalSchedule st !! unitCode = Some entry →
    m st = (log, r) →
    match r with
    | inl _ => True
    | inr (true, st') => extended later unitCode activities entry st st'
    | inr (false, st') => restored later st st'
    end.

(** What a call [m] that schedules [units] leaves behind when it
    returns. *)
Definition units_outcome (units : list Unit.t) (m : M bool) : Prop :=
  ∀ st log r,
    m st = (log, r) →
    match r with
    | inl _ => True
    | inr (true, st') => completed units st st'
    | inr (false, st') => restored units st st'
    end.

(** The sessions the schedule holds for a unit code, and the intervals the
    index holds for a day; none under a missing key. *)
Definition sessions_of (schedule : FilteredCourseList) (unitCode : string)
  : list Course.t :=
  match schedule !! unitCode with
  | Some entry => Entry.courses entry
  | None => []
  end.

Definition times_of (times : CourseTimes) (day : string)
  : list ScheduledTime.t :=
  default [] (times !! day).

(** The units [later] have no session in the schedule. *)
Definition pending (later : list Unit.t) (st : State) : Prop :=
  ∀ u, u ∈ later → sessions_of (finalSchedule st) (Unit.unitCode u) = [].

(** The interval a committed session stands for in the index, with its
    day: what [scheduleCourse] pushes for it. *)
Definition slot_of (parse : option string -> result JS.Date)
    (unitCode : string) (course : Course.t)
  : result (string * ScheduledTime.t) :=
  match parseCourseTimes parse (Course.time course) with
  | inl e => inl e
  | inr (startTime, endTime) =>
      inr (Course.day course,
           {| ScheduledTime.start := startTime;
              ScheduledTime.end_ := endTime;
              ScheduledTime.unitCode := unitCode;
              ScheduledTime.activity := Course.activity course |})
  end.

(** Two indexed intervals are compatible unless they are on the same day
    and overlap. *)
Definition compatible (a b : string * ScheduledTime.t) : Prop :=
  a.1 = b.1 →
  ¬ (JS.lt (ScheduledTime.start a.2) (ScheduledTime.end_ b.2) = true
     ∧ JS.gt (ScheduledTime.end_ a.2) (ScheduledTime.start b.2) = true).




(** The elements a function gives for each of some keys, each with its
    key. *)
Definition keyed {K A : Type} (f : K -> list A) (keys : list K)
  : list (K * A) :=
  flat_map (fun k => map (pair k) (f k)) keys.

(** The same two lists over given keys. *)
Definition committed_over (codes : list string) (st : State)
  : list (string * Course.t) :=
  keyed (sessions_of (finalSchedule st)) codes.

Definition indexed_over (days : list string) (st : State)
  : list (string * ScheduledTime.t) :=
  keyed (times_of (scheduledTimesPerDay st)) days.

(** The invariant of the search over the units with the codes [codes]. *)
Record Inv (parse : option string -> result JS.Date) (codes : list string)
    (st : State) : Prop := {
  inv_days : ∀ d, is_Some (scheduledTimesPerDay st !! d) ↔ d ∈ weekdays;
  inv_codes : ∀ k, is_Some (finalSchedule st !! k) → k ∈ codes;
  inv_slots :
    map (fun kc => slot_of parse kc.1 kc.2) (committed_over codes st)
    ≡ₚ map inr (indexed_over weekdays st);
  inv_compatible : ForallOrdPairs compatible (indexed_over weekdays st)
}.

Definition event_state (ev : event) : option State :=
  match ev with
  | Tried _ _ => None
  | Initialised st | Scheduled st | Unscheduled st => Some st
  end.

(** The exception a candidate raises when it is tried: the one of its time
    text, or else the one of a day the index has no array for. *)
Definition blame (parse : option string -> result JS.Date)
    (course : Course.t) : option exn :=
  match parseCourseTimes parse (Course.time course) with
  | inl e => Some e
  | inr _ =>
      if bool_decide (Course.day course ∈ weekdays) then None
      else Some TypeError
  end.

(** Sessions, activities and units none of whose sessions raises an
    exception when tried. *)
Definition fine_courses (parse : option string -> result JS.Date)
    (courses : list Course.t) : Prop :=
  ∀ c, c ∈ courses → blame parse c = None.

Definition fine_activities (parse : option string -> result JS.Date)
    (activities : list Activity.t) : Prop :=
  ∀ a, a ∈ activities → fine_courses parse (Activity.courses a).

Definition fine_units (parse : option string -> result JS.Date)
    (units : list Unit.t) : Prop :=
  ∀ u, u ∈ units → fine_activities parse (Unit.activities u).

(** A run that keeps the invariant: every state it logs and the state it
    returns satisfy [Inv]; a tried candidate with an exception to raise
    ends the run with that exception; and the run returns when no session
    it may try has one ([fine]). *)
Record guarded_run (parse : option string -> result JS.Date)
    (codes : list string) (fine : Prop) (log : list event)
    (r : result (bool * State)) : Prop := {
  run_states :
    Forall (fun ev => ∀ s, event_state ev = Some s → Inv parse codes s) log;
  run_blame :
    ∀ unitCode c e, Tried unitCode c ∈ log → blame parse c = Some e →
                    r = inl e;
  run_returns : fine → ∃ b st', r = inr (b, st');
  run_final : ∀ b st', r = inr (b, st') → Inv parse codes st'
}.

Definition units_safe (parse : option string -> result JS.Date)
    (codes : list string) (units : list Unit.t) (m : M bool) : Prop :=
  ∀ st log r,
    Inv parse codes st → pending units st → m st = (log, r) →
    guarded_run parse codes (fine_units parse units) log r.

Definition activities_safe (parse : option string -> result JS.Date)
    (codes : list string) (later : list Unit.t) (unitCode : string)
    (activities : list Activity.t) (m : M bool) : Prop :=
  ∀ st log r,
    Inv parse codes st → pending later st →
    is_Some (finalSchedule st !! unitCode) → m st = (log, r) →
    guarded_run parse codes
      (fine_activities parse activities ∧ fine_units parse later) log r.

(** The groups hold the sessions seen so far, each under its tag. *)
Definition grouped (seen : list Course.t)
    (groups : list (string * list Course.t)) : Prop :=
  NoDup (groups.*1)
  ∧ (∀ k, k ∈ groups.*1 ↔ k ∈ map Course.activity seen)
  ∧ ∀ k cs c, (k, cs) ∈ groups → c ∈ cs → Course.activity c = k ∧ c ∈ seen.

(** [built_from entry u]: the unit [u] stands for the input entry: its
    code and name, and one activity for each distinct tag of the entry's
    sessions, holding sessions of the entry with that tag. *)
Definition built_from (entry : string * UnitData.t) (u : Unit.t) : Prop :=
  Unit.unitCode u = entry.1
  ∧ Unit.unitName u = UnitData.unitName entry.2
  ∧ (∀ a c, a ∈ Unit.activities u → c ∈ Activity.courses a →
            Course.activity c = Activity.activityType a
            ∧ c ∈ UnitData.courses entry.2)
  ∧ map Activity.activityType (Unit.activities u)
    ≡ₚ remove_dups (map Course.activity (UnitData.courses entry.2)).

(** Two sessions conflict when they are on the same day and their parsed
    intervals overlap: the start of the one before the end of the other,
    and its end after the start of the other. *)
Definition conflict (parse : option string -> result JS.Date)
    (c1 c2 : Course.t) : Prop :=
  Course.day c1 = Course.day c2
  ∧ ∃ s1 e1 s2 e2,
      parseCourseTimes parse (Course.time c1) = inr (s1, e1)
      ∧ parseCourseTimes parse (Course.time c2) = inr (s2, e2)
      ∧ JS.lt s1 e2 = true ∧ JS.gt e1 s2 = true.

(** [chosen] holds sessions of the unit, exactly one for each distinct
    activity tag of the unit's sessions. *)
Definition one_per_activity (unitData : UnitData.t)
    (chosen : list Course.t) : Prop :=
  (∀ c, c ∈ chosen → c ∈ UnitData.courses unitData)
  ∧ map Course.activity chosen
    ≡ₚ remove_dups (map Course.activity (UnitData.courses unitData)).

(** A full assignment without conflicts: for each unit of the input, in
    order, its chosen sessions. *)
Definition Assignment (parse : option string -> result JS.Date)
    (courseList : CourseList) (choice : list (list Course.t)) : Prop :=
  Forall2 (fun entry chosen => one_per_activity entry.2 chosen)
          courseList choice
  ∧ ForallOrdPairs (fun c1 c2 => ¬ conflict parse c1 c2) (concat choice).

Definition Feasible (parse : option string -> result JS.Date)
    (courseList : CourseList) : Prop :=
  ∃ choice, Assignment parse courseList choice.

(** ** Plans: what the search has yet to find *)

(** A session is free in a state when its interval, if its time text
    parses, passes the conflict check against the index of that state. *)
Definition free (parse : option string -> result JS.Date) (st : State)
    (c : Course.t) : Prop :=
  ∀ startTime endTime,
    parseCourseTimes parse (Course.time c) = inr (startTime, endTime) →
    hasTimeConflict (times_of (scheduledTimesPerDay st) (Course.day c))
                    startTime endTime = false.

(** Sessions that can all be committed from a state: each is free and no
    two of them conflict. *)
Definition plan_ok (parse : option string -> result JS.Date) (st : State)
    (sessions : list Course.t) : Prop :=
  Forall (free parse st) sessions
  ∧ ForallOrdPairs (fun c1 c2 => ¬ conflict parse c1 c2) sessions.

(** One list of sessions for each unit, one session out of each of the
    unit's activities in the order the search takes them. *)
Definition unit_plans (units : list Unit.t) (plans : list (list Course.t))
  : Prop :=
  Forall2 (fun u l =>
             picks (sortActivitiesByCourseOptions (Unit.activities u)) l)
          units plans.

(** The activities left of the current unit and the units [later] can be
    completed from the state. *)
Definition solvable (parse : option string -> result JS.Date)
    (later : list Unit.t) (activities : list Activity.t) (st : State)
  : Prop :=
  ∃ chosen plans,
    picks activities chosen ∧ unit_plans later plans
    ∧ plan_ok parse st (chosen ++ concat plans).

(** ** Clock times *)

(** The hour of the day of a 12-hour clock reading: 12am is hour 0, 12pm
    is hour 12. *)
Definition hour24 (hours : Z) (pm : bool) : Z :=
  if pm then (if hours =? 12 then 12 else hours + 12)
  else (if hours =? 12 then 0 else hours).

(** The instant of a clock reading, when it is a time of day. *)
Definition clock_date (hours minutes : Z) (pm : bool) : JS.Date :=
  let h := hour24 hours pm in
  if ((h <=? 23) && (minutes <=? 59)) || ((h =? 24) && (minutes =? 0))
  then JS.Instant ((h * 60 + minutes) * 60000)
  else JS.InvalidDate.

(** [tried_in P ev]: when the event is the trial of a session, the unit
    code and the session satisfy [P]. *)
Definition tried_in (P : string -> Course.t -> Prop) (ev : event) : Prop :=
  match ev with
  | Tried unitCode course => P unitCode course
  | _ => True
  end.

(** The exception of a run is a type error or the one of parsing the time
    text of a session the run has tried. *)
Definition thrown_by_trial (parse : option string -> result JS.Date)
    (log : list event) (e : exn) : Prop :=
  e = TypeError
  ∨ ∃ k c, Tried k c ∈ log ∧ parseCourseTimes parse (Course.time c) = inl e.

(* ===================================================================== *)
(** * Sample runs *)
(* ===================================================================== *)

Example convertTo24Hour_2pm : convertTo24Hour "02:00pm" = inr "14:00:00".
Proof. reflexivity. Qed.
Example convertTo24Hour_12am : convertTo24Hour " 12:05AM " = inr "00:05:00".
Proof. reflexivity. Qed.
Example convertTo24Hour_bad :
  convertTo24Hour "9:00" = inl (Error "Invalid time format: 9:00").
Proof. reflexivity. Qed.
Example split_ex : JS.split " - " "9:00am - 10:30am" = ["9:00am"; "10:30am"].
Proof. reflexivity. Qed.
Example split_ex2 : JS.split " - " "a - b - c - " = ["a"; "b"; "c"; ""].
Proof. reflexivity. Qed.
Example split_ex3 : JS.split " - " "" = [""].
Proof. reflexivity. Qed.
Example toString_ex : JS.toString 0 = "0" /\ JS.toString 111 = "111" /\ JS.toString 10 = "10".
Proof. repeat split; reflexivity. Qed.
Example trivial_run :
  filterCourseList trivial_input
  = inr (Some {[ "CS101" :=
       {| Entry.unitName := "CS101";
          Entry.courses := [session "CS101" "LEC" "MON" "9:00am - 10:00am"] |} ]}).
Proof. vm_compute. reflexivity. Qed.

Example forced_conflict_run : filterCourseList forced_conflict_input = inr None.
Proof. vm_compute. reflexivity. Qed.

Example malformed_run :
  filterCourseList malformed_input = inl (InvalidTimeFormat "9:00").
Proof. vm_compute. reflexivity. Qed.

(** The second session of unit B is chosen after the first one, which
    overlaps the session of unit A, has been tried and given up.  Unit B,
    with two options, is searched before unit A, with one. *)
Example backtrack_run :
  ∃ schedule,
    filterCourseList backtrack_input = inr (Some schedule)
    ∧ schedule !! "B"
      = Some {| Entry.unitName := "B";
                Entry.courses :=
                  [session "B" "LEC" "MON" "10:00am - 11:00am"] |}
    ∧ schedule !! "A"
      = Some {| Entry.unitName := "A";
                Entry.courses :=
                  [session "A" "LEC" "MON" "9:00am - 10:00am"] |}.
Proof. eexists. repeat split; vm_compute; reflexivity. Qed.

(** A text without the separator has no end part; parts after the second
    are not read. *)
Example no_end_part : parseCourseTimes inlineCourseTime "9:00am" = inl TypeError.
Proof. reflexivity. Qed.

Example third_part_ignored :
  parseCourseTimes inlineCourseTime "9:00am - 10:00am - noon"
  = inr (JS.Instant 32400000, JS.Instant 36000000).
Proof. reflexivity. Qed.

Example entries_order :
  Object_entries [("b", 1); ("10", 2); ("2", 3); ("01", 4)]
  = [("2", 3); ("10", 2); ("b", 1); ("01", 4)].
Proof. reflexivity. Qed.

Example inherited_tag :
  filterCourseList
    [unit_of "CS101" [session "CS101" "constructor" "MON" "9:00am - 10:00am"]]
  = inl TypeError.
Proof. reflexivity. Qed.

(* ===================================================================== *)
(** * Clock texts and the conflict check *)
(* ===================================================================== *)

Lemma is_am_pm_spec x y :
  is_am_pm x y = true ↔ x ∈ ["a"; "A"; "p"; "P"]%char ∧ y ∈ ["m"; "M"]%char.
Proof.
  unfold is_am_pm. rewrite andb_true_iff, !orb_true_iff, !Ascii.eqb_eq.
  rewrite !elem_of_cons, !elem_of_nil. tauto.
Qed.

Lemma time_regex_shape s : is_Some (time_regex s) ↔ TimeShape s.
Proof.
  unfold time_regex, TimeShape. split.
  - intros [g Hg].
    destruct (JS.chars s) as [|a [|b [|c [|d [|e [|f [|g' [|? ?]]]]]]]];
      try discriminate.
    + destruct (_ && _) eqn:E in Hg; [|discriminate].
      rewrite !andb_true_iff, Ascii.eqb_eq, is_am_pm_spec in E.
      destruct E as [[[[? ->] ?] ?] [? ?]].
      exists [a], [c; d], e, f. repeat split; auto.
    + destruct (_ && _) eqn:E in Hg; [|discriminate].
      rewrite !andb_true_iff, Ascii.eqb_eq, is_am_pm_spec in E.
      destruct E as [[[[[? ?] ->] ?] ?] [? ?]].
      exists [a; b], [d; e], f, g'. repeat split; auto.
  - intros (h & m & x & y & -> & Hh & Dh & Hm & Dm & Hx & Hy).
    pose proof (proj2 (is_am_pm_spec x y) (conj Hx Hy)) as Hap.
    destruct m as [|m1 [|m2 [|? ?]]]; try discriminate.
    apply Forall_cons in Dm as [Dm1 Dm]. apply Forall_cons in Dm as [Dm2 _].
    destruct Hh as [Hh|Hh].
    + destruct h as [|h1 [|? ?]]; try discriminate.
      apply Forall_cons in Dh as [Dh1 _]. simpl.
      rewrite Dh1, Dm1, Dm2, Hap. simpl. eauto.
    + destruct h as [|h1 [|h2 [|? ?]]]; try discriminate.
      apply Forall_cons in Dh as [Dh1 Dh]. apply Forall_cons in Dh as [Dh2 _].
      simpl. rewrite Dh1, Dh2, Dm1, Dm2, Hap. simpl. eauto.
Qed.

Lemma convertTo24Hour_throws s :
  (∃ e, convertTo24Hour s = inl e) ↔ ¬ TimeShape (JS.trim s).
Proof.
  rewrite <- time_regex_shape. unfold convertTo24Hour.
  destruct (time_regex (JS.trim s)) as [[[? ?] ?]|]; split.
  - intros [e He]. discriminate.
  - intros H. exfalso. apply H. eauto.
  - intros _ [? ?]. discriminate.
  - eauto.
Qed.

Lemma hasTimeConflict_spec ts s e :
  hasTimeConflict ts s e = true
  ↔ ∃ t, t ∈ ts ∧ JS.lt s (ScheduledTime.end_ t) = true
              ∧ JS.gt e (ScheduledTime.start t) = true.
Proof.
  induction ts as [|t ts IH]; simpl.
  - split; [discriminate|]. intros (t & Ht & _). by apply elem_of_nil in Ht.
  - destruct (JS.lt s _ && JS.gt e _) eqn:E.
    + apply andb_true_iff in E as [? ?]. split; [|done].
      intros _. exists t. split; [left|done].
    + rewrite IH. split.
      * intros (t' & ? & ? & ?). exists t'. split; [by right|done].
      * intros (t' & Ht' & H1 & H2). apply elem_of_cons in Ht' as [->|?].
        -- rewrite H1, H2 in E. discriminate.
        -- eauto.
Qed.

(** C3 — Conflict predicate.  The check of a candidate interval from
    [startTime] to [endTime] against the committed intervals of a day
    reports a conflict exactly when some committed interval has
    [startTime < its end] and [endTime > its start]; on valid dates these
    are the comparisons of the instants.  The texts 9:00am - 10:00am and
    10:00am - 11:00am, which touch at 10:00am, do not conflict in either
    order, and the scheduler places both on the same day. *)
Theorem conflict_predicate :
  (∀ scheduledTimes startTime endTime,
     hasTimeConflict scheduledTimes startTime endTime = true
     ↔ ∃ t, t ∈ scheduledTimes
            ∧ JS.lt startTime (ScheduledTime.end_ t) = true
            ∧ JS.gt endTime (ScheduledTime.start t) = true)
  ∧ (∀ a b, (JS.lt (JS.Instant a) (JS.Instant b) = true ↔ a < b)
            ∧ (JS.gt (JS.Instant a) (JS.Instant b) = true ↔ a > b))
  ∧ (∃ s1 e1 s2 e2,
       parseCourseTimes inlineCourseTime "9:00am - 10:00am" = inr (s1, e1)
       ∧ parseCourseTimes inlineCourseTime "10:00am - 11:00am" = inr (s2, e2)
       ∧ ∀ code1 act1 code2 act2,
           hasTimeConflict
             [{| ScheduledTime.start := s1; ScheduledTime.end_ := e1;
                 ScheduledTime.unitCode := code1;
                 ScheduledTime.activity := act1 |}] s2 e2 = false
           ∧ hasTimeConflict
               [{| ScheduledTime.start := s2; ScheduledTime.end_ := e2;
                   ScheduledTime.unitCode := code2;
                   ScheduledTime.activity := act2 |}] s1 e1 = false)
  ∧ (∃ schedule,
       filterCourseList touching_input = inr (Some schedule)
       ∧ schedule !! "CS101"
         = Some {| Entry.unitName := "CS101";
                   Entry.courses :=
                     [session "CS101" "LEC" "MON" "9:00am - 10:00am";
                      session "CS101" "TUT" "MON" "10:00am - 11:00am"] |}).
Proof.
  split; [apply hasTimeConflict_spec|]. split; [|split].
  - intros a b. simpl. split.
    + apply Z.ltb_lt.
    + rewrite Z.gtb_ltb, Z.ltb_lt. lia.
  - exists (JS.Instant 32400000), (JS.Instant 36000000),
           (JS.Instant 36000000), (JS.Instant 39600000).
    split; [reflexivity|]. split; [reflexivity|].
    intros. split; reflexivity.
  - eexists. split; [vm_compute; reflexivity|]. vm_compute. reflexivity.
Qed.

Lemma hasTimeConflict_invalid ts d :
  hasTimeConflict ts JS.InvalidDate d = false
  ∧ hasTimeConflict ts d JS.InvalidDate = false.
Proof.
  induction ts as [|t ts [IH1 IH2]]; simpl; [done|].
  rewrite IH1, IH2. split; [done|].
  change (JS.gt JS.InvalidDate (ScheduledTime.start t)) with false.
  by rewrite andb_false_r.
Qed.

(** C9 — Shape-only time validation.  [convertTo24Hour] throws, and then
    its invalid-format error, exactly when the trimmed text does not have
    the shape of one or two digits, a colon, two digits and am or pm in
    either case; otherwise it returns a text.  No range is checked: 13:00pm
    gives 25:00:00 and 9:75am gives 09:75:00, neither of which is a time of
    day, so the date built from it is invalid; every order comparison with
    an invalid date is false, so an interval with an invalid start or end
    passes the conflict check against any committed intervals, and the
    scheduler places a 13:00pm - 2:00pm tutorial next to a 1:00pm - 2:00pm
    lecture of the same day. *)
Theorem shape_only_time_validation :
  (∀ time12h,
     (convertTo24Hour time12h = inl (InvalidTimeFormat time12h)
      ↔ ¬ TimeShape (JS.trim time12h))
     ∧ (convertTo24Hour time12h = inl (InvalidTimeFormat time12h)
        ∨ ∃ t, convertTo24Hour time12h = inr t))
  ∧ convertTo24Hour "13:00pm" = inr "25:00:00"
  ∧ convertTo24Hour "9:75am" = inr "09:75:00"
  ∧ JS.newDate_1970 "25:00:00" = JS.InvalidDate
  ∧ JS.newDate_1970 "09:75:00" = JS.InvalidDate
  ∧ (∀ d, JS.lt JS.InvalidDate d = false ∧ JS.lt d JS.InvalidDate = false
          ∧ JS.gt JS.InvalidDate d = false ∧ JS.gt d JS.InvalidDate = false)
  ∧ (∀ scheduledTimes d,
       hasTimeConflict scheduledTimes JS.InvalidDate d = false
       ∧ hasTimeConflict scheduledTimes d JS.InvalidDate = false)
  ∧ (∃ e, parseCourseTimes inlineCourseTime "13:00pm - 2:00pm"
          = inr (JS.InvalidDate, e))
  ∧ (∃ schedule,
       filterCourseList out_of_range_input = inr (Some schedule)
       ∧ schedule !! "CS101"
         = Some {| Entry.unitName := "CS101";
                   Entry.courses :=
                     [session "CS101" "LEC" "MON" "1:00pm - 2:00pm";
                      session "CS101" "TUT" "MON" "13:00pm - 2:00pm"] |}).
Proof.
  split.
  { intros s. pose proof (convertTo24Hour_throws s) as H.
    assert (E : ∀ e, convertTo24Hour s = inl e → e = InvalidTimeFormat s).
    { unfold convertTo24Hour.
      destruct (time_regex (JS.trim s)) as [[[? ?] ?]|]; congruence. }
    split.
    - rewrite <- H. split; [eauto|].
      intros [e He]. by rewrite <- (E e He).
    - destruct (convertTo24Hour s) as [e|t] eqn:Hc; [|eauto].
      left. by rewrite (E e eq_refl). }
  split; [reflexivity|]. split; [reflexivity|].
  split; [reflexivity|]. split; [reflexivity|].
  split. { intros d. destruct d; done. }
  split; [apply hasTimeConflict_invalid|].
  split. { eexists. vm_compute. reflexivity. }
  eexists. split; [vm_compute; reflexivity|]. vm_compute. reflexivity.
Qed.

(* ===================================================================== *)
(** * Sorting *)
(* ===================================================================== *)

Section ArraySortFacts.
Context {A : Type} (key : A -> Z).

Local Abbreviation cmp := (fun a b : A => key a - key b).

Lemma sort_insert_perm x l : sort_insert cmp x l ≡ₚ x :: l.
Proof.
  induction l as [|y l IH]; simpl; [done|].
  destruct (cmp x y >? 0); [|done].
  rewrite IH. apply Permutation_swap.
Qed.

Lemma Array_sort_perm l : Array_sort cmp l ≡ₚ l.
Proof.
  induction l as [|x l IH]; simpl; [done|].
  by rewrite sort_insert_perm, IH.
Qed.

Lemma sort_insert_sorted x l :
  StronglySorted (fun a b => key a <= key b) l →
  StronglySorted (fun a b => key a <= key b) (sort_insert cmp x l).
Proof.
  induction 1 as [|y l Hl IH Hy]; simpl.
  - repeat constructor.
  - destruct (Z.gtb_spec (key x - key y) 0) as [Hgt|Hle].
    + constructor; [done|].
      rewrite sort_insert_perm. constructor; [lia|done].
    + constructor; [by constructor|].
      constructor; [lia|].
      eapply Forall_impl; [exact Hy|]. simpl. intros. lia.
Qed.

Lemma Array_sort_sorted l :
  StronglySorted (fun a b => key a <= key b) (Array_sort cmp l).
Proof.
  induction l; simpl; [constructor|by apply sort_insert_sorted].
Qed.



Lemma Array_sort_sorted_id l :
  StronglySorted (fun a b => key a <= key b) l → Array_sort cmp l = l.
Proof.
  induction 1 as [|x l Hl IH Hx]; simpl; [done|].
  rewrite IH. destruct Hx as [|y l Hy _]; simpl; [done|].
  destruct (Z.gtb_spec (key x - key y) 0); [lia|done].
Qed.

End ArraySortFacts.

Lemma Array_sort_ext {A} (cmp1 cmp2 : A -> A -> Z) l :
  (∀ a b, cmp1 a b = cmp2 a b) → Array_sort cmp1 l = Array_sort cmp2 l.
Proof.
  intros E. induction l as [|x l IH]; simpl; [done|].
  rewrite IH. generalize (Array_sort cmp2 l). clear IH.
  intros k. induction k as [|y k IHk]; simpl; [done|].
  by rewrite E, IHk.
Qed.

Lemma sortUnits_by_key units :
  sortUnits units
  = Array_sort (fun a b => (- optionCount a) - (- optionCount b)) units.
Proof. apply Array_sort_ext. intros. lia. Qed.


Lemma sortActivities_perm acts : sortActivitiesByCourseOptions acts ≡ₚ acts.
Proof.
  apply (Array_sort_perm (fun a => Z.of_nat (length (Activity.courses a)))).
Qed.

(** Sorting the activities of a unit a second time changes nothing: the
    in-place sort of the source may be read as a function of the original
    order. *)
Lemma sortActivities_idempotent acts :
  sortActivitiesByCourseOptions (sortActivitiesByCourseOptions acts)
  = sortActivitiesByCourseOptions acts.
Proof.
  apply (Array_sort_sorted_id
           (fun a => Z.of_nat (length (Activity.courses a)))).
  apply (Array_sort_sorted (fun a => Z.of_nat (length (Activity.courses a)))).
Qed.

Lemma sortUnits_perm units : sortUnits units ≡ₚ units.
Proof.
  rewrite sortUnits_by_key.
  apply (Array_sort_perm (fun u => - optionCount u)).
Qed.


(* ===================================================================== *)
(** * Runs of the search *)
(* ===================================================================== *)

Lemma bind_run {A B} (m : M A) (f : A -> M B) st log r :
  bind m f st = (log, r) →
  (∃ e, m st = (log, inl e) ∧ r = inl e)
  ∨ (∃ log1 a st1 log2,
       m st = (log1, inr (a, st1)) ∧ f a st1 = (log2, r)
       ∧ log = log1 ++ log2).
Proof.
  unfold bind. destruct (m st) as [log1 [e|[a st1]]].
  - intros [= <- <-]. left. eauto.
  - destruct (f a st1) as [log2 r2] eqn:Hf. intros [= <- <-].
    right. eauto 10.
Qed.

Lemma update_run tag f st log r :
  update tag f st = (log, r) →
  (∃ e, f st = inl e ∧ log = [] ∧ r = inl e)
  ∨ (∃ st', f st = inr st' ∧ log = [tag st'] ∧ r = inr (tt, st')).
Proof.
  unfold update. destruct (f st) as [e|st']; intros [= <- <-]; eauto 10.
Qed.

Section Runs.
Variable parse : option string -> result JS.Date.

Lemma tryCourses_run next unitCode courses st log r :
  tryCourses parse next unitCode courses st = (log, r) →
  TryRun parse next unitCode courses st log r.
Proof.
  revert st log r. induction courses as [|course more IH]; intros st log r.
  { intros [= <- <-]. constructor. }
  cbn [tryCourses]. unfold bind at 1. cbn [emit].
  unfold bind at 1. unfold lift at 1.
  destruct (parseCourseTimes parse (Course.time course))
    as [e|[startTime endTime]] eqn:Hparse.
  { intros [= <- <-]. by apply try_bad_time. }
  unfold bind at 1. unfold lookupTimes at 1.
  destruct (scheduledTimesPerDay st !! Course.day course)
    as [scheduledTimes|] eqn:Hday; last first.
  { intros [= <- <-]. by eapply try_bad_day. }
  destruct (hasTimeConflict scheduledTimes startTime endTime) eqn:Hconf.
  { destruct (tryCourses parse next unitCode more st) as [log' r'] eqn:Hmore.
    intros [= <- <-]. eapply try_conflict; eauto. }
  unfold bind at 1. unfold update at 1.
  destruct (scheduleCourse unitCode course startTime endTime st)
    as [e|st1] eqn:Hsched.
  { intros [= <- <-]. eapply try_no_entry; eauto. }
  unfold bind at 1.
  destruct (next st1) as [log1 [e|[[|] st2]]] eqn:Hnext.
  - intros [= <- <-]. cbn [app]. eapply try_throw; eauto.
  - cbn [ret]. intros [= <- <-]. cbn [app]; rewrite ?app_nil_r.
    eapply try_success; eauto.
  - unfold bind at 1. unfold update at 1.
    destruct (unscheduleCourse unitCode (Course.day course) st2)
      as [e|st3] eqn:Hun.
    + intros [= <- <-]. cbn [app]; rewrite ?app_nil_r.
      eapply try_stuck; eauto.
    + destruct (tryCourses parse next unitCode more st3) as [log' r'] eqn:Hmore.
      intros [= <- <-]. cbn [app].
      eapply try_backtrack; eauto.
Qed.

End Runs.

(* ===================================================================== *)
(** * What the search leaves in the two objects *)
(* ===================================================================== *)

Lemma restored_refl later st : restored later st st.
Proof. split; [done|]. intros k. by left. Qed.

Lemma restored_trans later st1 st2 st3 :
  restored later st1 st2 → restored later st2 st3 → restored later st1 st3.
Proof.
  intros [Hi1 Hf1] [Hi2 Hf2]. split; [congruence|].
  intros k. destruct (Hf2 k) as [E|?]; [|by right].
  rewrite E. apply Hf1.
Qed.

Lemma restored_lookup later st st' k :
  restored later st st' → k ∉ unitCodes later →
  finalSchedule st' !! k = finalSchedule st !! k.
Proof.
  intros [_ Hf] Hk. destruct (Hf k) as [E|(u & Hu & -> & _)]; [done|].
  exfalso. apply Hk. unfold unitCodes. apply list_elem_of_fmap. eauto.
Qed.

Lemma scheduleCourse_inr unitCode course startTime endTime st st1 :
  scheduleCourse unitCode course startTime endTime st = inr st1 →
  ∃ entry,
    finalSchedule st !! unitCode = Some entry
    ∧ finalSchedule st1
      = <[unitCode := {| Entry.unitName := Entry.unitName entry;
                         Entry.courses := Entry.courses entry ++ [course] |}]>
          (finalSchedule st)
    ∧ scheduledTimesPerDay st1
      = alter (fun ts => ts ++
                [{| ScheduledTime.start := startTime;
                    ScheduledTime.end_ := endTime;
                    ScheduledTime.unitCode := unitCode;
                    ScheduledTime.activity := Course.activity course |}])
              (Course.day course) (scheduledTimesPerDay st).
Proof.
  unfold scheduleCourse. destruct (finalSchedule st !! unitCode) as [entry|];
    [|discriminate].
  intros [= <-]. eauto.
Qed.

Lemma unscheduleCourse_inr unitCode day st st3 :
  unscheduleCourse unitCode day st = inr st3 →
  ∃ entry,
    finalSchedule st !! unitCode = Some entry
    ∧ finalSchedule st3
      = <[unitCode := {| Entry.unitName := Entry.unitName entry;
                         Entry.courses := removelast (Entry.courses entry) |}]>
          (finalSchedule st)
    ∧ scheduledTimesPerDay st3
      = alter (@removelast _) day (scheduledTimesPerDay st).
Proof.
  unfold unscheduleCourse. destruct (finalSchedule st !! unitCode) as [entry|];
    [|discriminate].
  intros [= <-]. eauto.
Qed.

(** Uncommitting after a call that restored the state undoes the commit. *)
Lemma uncommit_restores later unitCode course startTime endTime st st1 st2 st3 :
  unitCode ∉ unitCodes later →
  scheduleCourse unitCode course startTime endTime st = inr st1 →
  restored later st1 st2 →
  unscheduleCourse unitCode (Course.day course) st2 = inr st3 →
  restored later st st3.
Proof.
  intros Hfresh Hs Hr Hu.
  apply scheduleCourse_inr in Hs as (entry & He & Hf1 & Hi1).
  apply unscheduleCourse_inr in Hu as (entry2 & He2 & Hf3 & Hi3).
  pose proof (restored_lookup _ _ _ _ Hr Hfresh) as E.
  rewrite He2, Hf1, lookup_insert_eq in E. injection E as ->.
  destruct Hr as [Hi2 Hf2]. split.
  - rewrite Hi3, Hi2, Hi1, alter_alter_eq. apply alter_id.
    intros ts _. simpl. apply removelast_last.
  - intros k. rewrite Hf3. destruct (decide (k = unitCode)) as [->|Hk].
    + left. rewrite lookup_insert_eq, He. simpl. rewrite removelast_last.
      by destruct entry.
    + rewrite lookup_insert_ne by done.
      destruct (Hf2 k) as [E|?]; [|by right].
      left. rewrite E, Hf1. by rewrite lookup_insert_ne.
Qed.

Section Outcome.
Variable parse : option string -> result JS.Date.
Variable later : list Unit.t.
Variable unitCode : string.
Hypothesis unitCode_fresh : unitCode ∉ unitCodes later.

Lemma TryRun_outcome activities next (available : list Course.t) courses st
    log r :
  outcome_of later unitCode activities next →
  TryRun parse next unitCode courses st log r →
  ∀ entry,
    finalSchedule st !! unitCode = Some entry →
    (∀ c, c ∈ courses → c ∈ available) →
    match r with
    | inl _ => True
    | inr (true, st') =>
        ∃ c, c ∈ available
             ∧ extended later unitCode activities
                 {| Entry.unitName := Entry.unitName entry;
                    Entry.courses := Entry.courses entry ++ [c] |}
                 st
                 st'
    | inr (false, st') => restored later st st'
    end.
Proof.
  intros Hnext. induction 1 as
    [ st | | | c more st s e ts log r _ _ _ _ IH | |
    | c more st s e ts st1 log1 st2 Hp Hd Hc Hs Hn
    | | c more st s e ts st1 log1 st2 st3 log r Hp Hd Hc Hs Hn Hu _ IH ];
    intros entry He Hav; try done.
  - apply restored_refl.
  - apply IH; [done|]. intros c' ?. apply Hav. by right.
  - exists c. split; [apply Hav; left|].
    pose proof Hs as Hs'.
    apply scheduleCourse_inr in Hs' as (entry' & He' & Hf1 & Hi1).
    rewrite He in He'. injection He' as <-.
    assert (E1 : finalSchedule st1 !! unitCode
                 = Some {| Entry.unitName := Entry.unitName entry;
                           Entry.courses := Entry.courses entry ++ [c] |}).
    { by rewrite Hf1, lookup_insert_eq. }
    specialize (Hnext _ _ _ _ E1 Hn). simpl in Hnext.
    destruct Hnext as (Ho & Hcur & Hl). split; [|split; [|done]].
    + intros k ? ?. rewrite Ho, Hf1 by done. by rewrite lookup_insert_ne.
    + done.
  - pose proof Hs as Hs'.
    apply scheduleCourse_inr in Hs' as (entry' & He' & Hf1 & Hi1).
    rewrite He in He'. injection He' as <-.
    assert (E1 : finalSchedule st1 !! unitCode
                 = Some {| Entry.unitName := Entry.unitName entry;
                           Entry.courses := Entry.courses entry ++ [c] |}).
    { by rewrite Hf1, lookup_insert_eq. }
    specialize (Hnext _ _ _ _ E1 Hn). simpl in Hnext.
    pose proof (uncommit_restores _ _ _ _ _ _ _ _ _ unitCode_fresh Hs Hnext Hu)
      as Hr.
    assert (E3 : finalSchedule st3 !! unitCode = Some entry).
    { by rewrite (restored_lookup _ _ _ _ Hr unitCode_fresh). }
    specialize (IH entry E3 (fun c' H => Hav c' (list_elem_of_further _ _ _ H))).
    destruct r as [?|[[|] st']]; [done| |].
    + destruct IH as (c' & ? & Ho & Hcur & Hl). exists c'. split; [done|].
      split; [|done].
      intros k ? ?. rewrite Ho by done. by apply (restored_lookup later).
    + by eapply restored_trans.
Qed.

End Outcome.

Section UnitsOutcome.
Variable parse : option string -> result JS.Date.

Lemma scheduleActivities_outcome later unitCode nextUnit activities :
  unitCode ∉ unitCodes later →
  units_outcome later nextUnit →
  outcome_of later unitCode activities
             (scheduleActivities parse nextUnit unitCode activities).
Proof.
  intros Hfresh Hnext.
  induction activities as [|a acts IH]; intros st entry log r He Hrun.
  - simpl in Hrun. specialize (Hnext _ _ _ Hrun).
    destruct r as [?|[[|] st']]; [done| |done].
    destruct Hnext as [Ho Hl]. split; [|split; [|done]].
    + intros k _ Hk. by apply Ho.
    + exists []. split; [|constructor].
      rewrite Ho, He, app_nil_r by done. by destruct entry.
  - simpl in Hrun. apply tryCourses_run in Hrun.
    pose proof (TryRun_outcome parse later unitCode Hfresh acts _
                  (Activity.courses a) _ _ _ _ IH Hrun entry He
                  (fun c H => H)) as H.
    destruct r as [?|[[|] st']]; [done| |done].
    destruct H as (c & Hc & Ho & (cs & Hcur & Hp) & Hl).
    split; [done|]. split; [|done].
    exists (c :: cs). split; [|by constructor].
    rewrite Hcur. simpl. by rewrite <- app_assoc.
Qed.

Lemma scheduleUnitsFrom_outcome units :
  NoDup (unitCodes units) →
  units_outcome units (scheduleUnitsFrom parse units).
Proof.
  induction units as [|u later IH]; intros Hnd st log r Hrun.
  - injection Hrun as <- <-. split; [done|]. intros u Hu.
    by apply elem_of_nil in Hu.
  - simpl in Hnd. apply NoDup_cons in Hnd as [Hfresh Hnd].
    cbn [scheduleUnitsFrom] in Hrun.
    apply bind_run in Hrun
      as [(e & Hup & ->)|(log1 & [] & st0 & log2 & Hup & Hrun & ->)]; [done|].
    apply update_run in Hup as [(e & ? & _)|(st0' & Hinit & _ & [= <-])];
      [discriminate|].
    injection Hinit as <-.
    pose proof (scheduleActivities_outcome later (Unit.unitCode u)
                  (scheduleUnitsFrom parse later)
                  (sortActivitiesByCourseOptions (Unit.activities u))
                  Hfresh (IH Hnd) _ (entry_of u []) _ _
                  (lookup_insert_eq _ _ _) Hrun) as H.
    destruct r as [?|[[|] st']]; [done| |].
    + destruct H as (Ho & (cs & Hcur & Hp) & Hl). split.
      * intros k Hk. simpl in Hk. apply not_elem_of_cons in Hk as [? ?].
        rewrite Ho by done. simpl. by rewrite lookup_insert_ne.
      * intros u' Hu'. apply elem_of_cons in Hu' as [->|Hu']; [|by apply Hl].
        exists cs. by split.
    + destruct H as [Hi Hf]. split; [done|].
      intros k. destruct (Hf k) as [E|(u' & ? & ? & ?)].
      * destruct (decide (k = Unit.unitCode u)) as [->|Hk].
        -- right. exists u. split; [left|]. split; [done|].
           rewrite E. simpl. by rewrite lookup_insert_eq.
        -- left. rewrite E. simpl. by rewrite lookup_insert_ne.
      * right. exists u'. split; [by right|done].
Qed.

End UnitsOutcome.

(* ===================================================================== *)
(** * Lists over the keys of a map *)
(* ===================================================================== *)

Section OrdPairs.
Context {A : Type} (R : A -> A -> Prop).
Hypothesis R_sym : ∀ a b, R a b → R b a.

Lemma ForallOrdPairs_cons_inv a l :
  ForallOrdPairs R (a :: l) ↔ Forall (R a) l ∧ ForallOrdPairs R l.
Proof.
  split.
  - by inversion 1; subst.
  - intros [H1 H2]. by constructor.
Qed.

Lemma ForallOrdPairs_perm l l' :
  l ≡ₚ l' → ForallOrdPairs R l → ForallOrdPairs R l'.
Proof.
  induction 1 as [|x l l' Hp IH|x y l|l1 l2 l3 _ IH1 _ IH2]; intros H.
  - done.
  - apply ForallOrdPairs_cons_inv in H as [H1 H2].
    apply ForallOrdPairs_cons_inv. split; [by rewrite <- Hp|auto].
  - apply ForallOrdPairs_cons_inv in H as [H1 H2].
    apply ForallOrdPairs_cons_inv in H2 as [H2 H3].
    apply Forall_cons in H1 as [Hyx H1].
    apply ForallOrdPairs_cons_inv. split.
    + apply Forall_cons. split; [by apply R_sym|done].
    + by apply ForallOrdPairs_cons_inv.
  - auto.
Qed.

Lemma ForallOrdPairs_app_inv l1 l2 :
  ForallOrdPairs R (l1 ++ l2) →
  ForallOrdPairs R l1 ∧ ForallOrdPairs R l2
  ∧ ∀ a b, a ∈ l1 → b ∈ l2 → R a b.
Proof.
  induction l1 as [|x l1 IH]; simpl.
  - intros H. split; [constructor|]. split; [done|].
    intros a b Ha. by apply elem_of_nil in Ha.
  - intros H. apply ForallOrdPairs_cons_inv in H as [H1 H2].
    apply Forall_app in H1 as [H1 H1'].
    destruct (IH H2) as (I1 & I2 & I3). split.
    + by apply ForallOrdPairs_cons_inv.
    + split; [done|]. intros a b Ha Hb.
      apply elem_of_cons in Ha as [->|Ha]; [|by apply I3].
      rewrite Forall_forall in H1'. by apply H1'.
Qed.

Lemma ForallOrdPairs_lookup l i j a b :
  ForallOrdPairs R l → i ≠ j → l !! i = Some a → l !! j = Some b → R a b.
Proof.
  intros H. revert i j. induction l as [|x l IH]; intros i j Hij Hi Hj.
  { done. }
  apply ForallOrdPairs_cons_inv in H as [H1 H2].
  rewrite Forall_forall in H1.
  destruct i as [|i], j as [|j]; simpl in *.
  - done.
  - injection Hi as ->. apply H1. by eapply list_elem_of_lookup_2.
  - injection Hj as ->. apply R_sym, H1. by eapply list_elem_of_lookup_2.
  - eapply (IH H2 i j); eauto.
Qed.

End OrdPairs.

Lemma ForallOrdPairs_map {A B} (f : A -> B) (R : B -> B -> Prop) l :
  ForallOrdPairs R (map f l) ↔ ForallOrdPairs (fun a b => R (f a) (f b)) l.
Proof.
  induction l as [|x l IH]; simpl.
  - split; constructor.
  - rewrite !ForallOrdPairs_cons_inv, IH, Forall_fmap. done.
Qed.

Lemma ForallOrdPairs_impl {A} (R R' : A -> A -> Prop) l :
  (∀ a b, R a b → R' a b) → ForallOrdPairs R l → ForallOrdPairs R' l.
Proof.
  intros HR. induction l as [|x l IH]; [constructor|].
  rewrite !ForallOrdPairs_cons_inv. intros [H1 H2]. split; [|auto].
  eapply Forall_impl; eauto.
Qed.

Section KeyedLists.
Context {K A : Type}.

Lemma keyed_ext (f g : K -> list A) (keys : list K) :
  (∀ k, k ∈ keys → f k = g k) → keyed f keys = keyed g keys.
Proof.
  intros E. unfold keyed. induction keys as [|k keys IH]; simpl; [done|].
  rewrite E by left. f_equal. apply IH. intros. apply E. by right.
Qed.

Lemma keyed_snoc (f g : K -> list A) (keys : list K) k x :
  NoDup keys → k ∈ keys → g k = f k ++ [x] →
  (∀ k', k' ≠ k → g k' = f k') →
  keyed g keys ≡ₚ (k, x) :: keyed f keys.
Proof.
  intros Hnd Hk Hg Ho. induction keys as [|k0 keys IH]; simpl.
  { by apply elem_of_nil in Hk. }
  apply NoDup_cons in Hnd as [Hk0 Hnd].
  apply elem_of_cons in Hk as [->|Hk].
  - rewrite Hg, map_app. simpl.
    rewrite (keyed_ext g f keys).
    + rewrite <- app_assoc. simpl. symmetry. apply Permutation_middle.
    + intros k' Hk'. apply Ho. intros ->. done.
  - rewrite (Ho k0) by (intros ->; done).
    fold (keyed g keys). fold (keyed f keys).
    rewrite (IH Hnd Hk). symmetry. apply Permutation_middle.
Qed.

Lemma keyed_perm (f : K -> list A) (keys keys' : list K) :
  keys ≡ₚ keys' → keyed f keys ≡ₚ keyed f keys'.
Proof.
  intros H. unfold keyed. rewrite !flat_map_concat_map. by rewrite H.
Qed.

Lemma elem_of_keyed (f : K -> list A) (keys : list K) k a :
  (k, a) ∈ keyed f keys ↔ k ∈ keys ∧ a ∈ f k.
Proof.
  unfold keyed. rewrite list_elem_of_In, in_flat_map. split.
  - intros (k' & Hk' & Hin). apply in_map_iff in Hin as (a' & [= -> ->] & Ha).
    split; by apply list_elem_of_In.
  - intros [Hk Ha]. exists k. split; [by apply list_elem_of_In|].
    apply in_map. by apply list_elem_of_In.
Qed.

End KeyedLists.

(* ===================================================================== *)
(** * The invariant of the search *)
(* ===================================================================== *)

Lemma JS_gt_lt a b : JS.gt a b = JS.lt b a.
Proof. destruct a, b; simpl; try done. apply Z.gtb_ltb. Qed.

Lemma compatible_sym a b : compatible a b → compatible b a.
Proof.
  unfold compatible. intros H E [H1 H2]. apply H; [done|].
  rewrite JS_gt_lt in H2. rewrite JS_gt_lt. done.
Qed.

Lemma weekdays_NoDup : NoDup weekdays.
Proof. apply (bool_decide_unpack _). by vm_compute. Qed.

Lemma keyed_nil {K A} (f : K -> list A) (keys : list K) :
  (∀ k, f k = []) → keyed f keys = [].
Proof.
  intros E. unfold keyed. induction keys as [|k keys IH]; simpl; [done|].
  by rewrite E, IH.
Qed.

Lemma hasTimeConflict_false ts startTime endTime t :
  hasTimeConflict ts startTime endTime = false → t ∈ ts →
  ¬ (JS.lt startTime (ScheduledTime.end_ t) = true
     ∧ JS.gt endTime (ScheduledTime.start t) = true).
Proof.
  intros Hc Ht [H1 H2].
  assert (hasTimeConflict ts startTime endTime = true) as E; [|congruence].
  apply hasTimeConflict_spec. eauto.
Qed.

Lemma initialTimes_dom : dom initialTimes = list_to_set weekdays.
Proof. by vm_compute. Qed.

Section Invariant.
Variable parse : option string -> result JS.Date.
Variable codes : list string.
Hypothesis codes_NoDup : NoDup codes.

Lemma Inv_initial : Inv parse codes initialState.
Proof.
  split.
  - intros d. simpl.
    rewrite <- elem_of_dom, initialTimes_dom. apply elem_of_list_to_set.
  - intros k. simpl. rewrite lookup_empty. by intros [? ?].
  - unfold committed_over. rewrite keyed_nil; [done|].
    intros k. unfold sessions_of. simpl. by rewrite lookup_empty.
  - vm_compute. constructor.
Qed.

Lemma Inv_same st st' :
  Inv parse codes st →
  scheduledTimesPerDay st' = scheduledTimesPerDay st →
  (∀ k, sessions_of (finalSchedule st') k = sessions_of (finalSchedule st) k) →
  (∀ k, is_Some (finalSchedule st' !! k) → k ∈ codes) →
  Inv parse codes st'.
Proof.
  intros [H1 H2 H3 H4] Hi Hs Hk.
  assert (committed_over codes st' = committed_over codes st) as Ec.
  { apply keyed_ext. intros. apply Hs. }
  assert (indexed_over weekdays st' = indexed_over weekdays st) as Ei.
  { unfold indexed_over. by rewrite Hi. }
  split.
  - intros d. rewrite Hi. apply H1.
  - done.
  - by rewrite Ec, Ei.
  - by rewrite Ei.
Qed.

Lemma Inv_restored later st st' :
  Inv parse codes st → pending later st → restored later st st' →
  (∀ u, u ∈ later → Unit.unitCode u ∈ codes) →
  Inv parse codes st' ∧ pending later st'.
Proof.
  intros HI Hp [Hi Hf] Hl.
  assert (∀ k, sessions_of (finalSchedule st') k
               = sessions_of (finalSchedule st) k) as Hs.
  { intros k. unfold sessions_of.
    destruct (Hf k) as [->|(u & Hu & -> & ->)]; [done|].
    symmetry. apply (Hp u Hu). }
  split.
  - apply (Inv_same st); [done..|].
    intros k. destruct (Hf k) as [->|(u & Hu & -> & _)]; [apply HI|auto].
  - intros u Hu. rewrite Hs. by apply Hp.
Qed.

Lemma Inv_initialize u st st' :
  Inv parse codes st →
  sessions_of (finalSchedule st) (Unit.unitCode u) = [] →
  Unit.unitCode u ∈ codes →
  initializeUnitSchedule u st = inr st' →
  Inv parse codes st'
  ∧ (∀ k, sessions_of (finalSchedule st') k = sessions_of (finalSchedule st) k)
  ∧ finalSchedule st' !! Unit.unitCode u = Some (entry_of u []).
Proof.
  intros HI He Hu [= <-].
  assert (∀ k, sessions_of (<[Unit.unitCode u := entry_of u []]>
                              (finalSchedule st)) k
               = sessions_of (finalSchedule st) k) as Hs.
  { intros k. unfold sessions_of at 1.
    destruct (decide (k = Unit.unitCode u)) as [->|?].
    - by rewrite lookup_insert_eq, He.
    - by rewrite lookup_insert_ne. }
  split; [|split; [done|]].
  - apply (Inv_same st); [done..|]. simpl. intros k.
    rewrite lookup_insert_is_Some. intros [<-|[_ ?]]; [done|by apply HI].
  - simpl. by rewrite lookup_insert_eq.
Qed.

Lemma Inv_schedule unitCode course startTime endTime scheduledTimes st st1 :
  Inv parse codes st →
  unitCode ∈ codes →
  parseCourseTimes parse (Course.time course) = inr (startTime, endTime) →
  scheduledTimesPerDay st !! Course.day course = Some scheduledTimes →
  hasTimeConflict scheduledTimes startTime endTime = false →
  scheduleCourse unitCode course startTime endTime st = inr st1 →
  Inv parse codes st1.
Proof.
  intros [H1 H2 H3 H4] Hc Hp Hd Hconf Hs.
  apply scheduleCourse_inr in Hs as (entry & He & Hf1 & Hi1).
  set (t := {| ScheduledTime.start := startTime;
               ScheduledTime.end_ := endTime;
               ScheduledTime.unitCode := unitCode;
               ScheduledTime.activity := Course.activity course |}) in *.
  assert (Hday : Course.day course ∈ weekdays).
  { apply H1. by rewrite Hd. }
  assert (Ec : committed_over codes st1
               ≡ₚ (unitCode, course) :: committed_over codes st).
  { apply keyed_snoc; [done..| |].
    - unfold sessions_of. by rewrite Hf1, lookup_insert_eq, He.
    - intros k' Hk'. unfold sessions_of. by rewrite Hf1, lookup_insert_ne. }
  assert (Ei : indexed_over weekdays st1
               ≡ₚ (Course.day course, t) :: indexed_over weekdays st).
  { apply keyed_snoc; [apply weekdays_NoDup|done| |].
    - unfold times_of. by rewrite Hi1, lookup_alter_eq, Hd.
    - intros k' Hk'. unfold times_of. by rewrite Hi1, lookup_alter_ne. }
  split.
  - intros d. rewrite Hi1, lookup_alter_is_Some. apply H1.
  - intros k. rewrite Hf1, lookup_insert_is_Some.
    intros [<-|[_ ?]]; [done|by apply H2].
  - rewrite Ec, Ei. simpl. unfold slot_of at 1. rewrite Hp. fold t.
    by constructor.
  - eapply (ForallOrdPairs_perm _ compatible_sym); [symmetry; exact Ei|].
    constructor; [|done].
    apply Forall_forall. intros [d t'] Hin E. simpl in E. subst d.
    apply elem_of_keyed in Hin as [_ Hin]. unfold times_of in Hin.
    rewrite Hd in Hin. simpl in *. by eapply hasTimeConflict_false.
Qed.

End Invariant.

(* ===================================================================== *)
(** * Runs keep the invariant *)
(* ===================================================================== *)

Section Safety.
Variable parse : option string -> result JS.Date.
Variable codes : list string.
Hypothesis codes_NoDup : NoDup codes.

Lemma blame_bad_time c e :
  parseCourseTimes parse (Course.time c) = inl e → blame parse c = Some e.
Proof. unfold blame. by intros ->. Qed.

Lemma blame_bad_day c s e st :
  Inv parse codes st →
  parseCourseTimes parse (Course.time c) = inr (s, e) →
  scheduledTimesPerDay st !! Course.day c = None →
  blame parse c = Some TypeError.
Proof.
  intros HI Hp Hd. unfold blame. rewrite Hp.
  rewrite bool_decide_eq_false_2; [done|].
  intros Hin. apply (inv_days _ _ _ HI) in Hin. rewrite Hd in Hin.
  by destruct Hin.
Qed.

Lemma blame_none c s e ts st :
  Inv parse codes st →
  parseCourseTimes parse (Course.time c) = inr (s, e) →
  scheduledTimesPerDay st !! Course.day c = Some ts →
  blame parse c = None.
Proof.
  intros HI Hp Hd. unfold blame. rewrite Hp.
  rewrite bool_decide_eq_true_2; [done|].
  apply (inv_days _ _ _ HI). by rewrite Hd.
Qed.

Lemma guarded_run_weaken (fine fine' : Prop) log r :
  (fine' → fine) →
  guarded_run parse codes fine log r → guarded_run parse codes fine' log r.
Proof. intros Hf [H1 H2 H3 H4]. split; auto. Qed.

Section Candidates.
Variable later : list Unit.t.
Variable unitCode : string.
Variable activities : list Activity.t.
Variable next : M bool.
Hypothesis unitCode_known : unitCode ∈ codes.
Hypothesis unitCode_fresh : unitCode ∉ unitCodes later.
Hypothesis later_known : ∀ u, u ∈ later → Unit.unitCode u ∈ codes.
Hypothesis next_outcome : outcome_of later unitCode activities next.
Hypothesis next_safe : activities_safe parse codes later unitCode activities next.

Lemma pending_schedule course startTime endTime st st1 :
  pending later st →
  scheduleCourse unitCode course startTime endTime st = inr st1 →
  pending later st1 ∧ is_Some (finalSchedule st1 !! unitCode).
Proof.
  intros Hp Hs. apply scheduleCourse_inr in Hs as (entry & He & Hf1 & _).
  split.
  - intros u Hu. unfold sessions_of. rewrite Hf1, lookup_insert_ne.
    + by apply Hp.
    + intros ->. apply unitCode_fresh. unfold unitCodes.
      apply list_elem_of_fmap. eauto.
  - rewrite Hf1, lookup_insert_eq. eauto.
Qed.

Lemma TryRun_safe courses st log r :
  TryRun parse next unitCode courses st log r →
  Inv parse codes st → pending later st →
  is_Some (finalSchedule st !! unitCode) →
  guarded_run parse codes
    (fine_courses parse courses
     ∧ fine_activities parse activities ∧ fine_units parse later) log r.
Proof.
  induction 1 as
    [ st
    | c more st e Hp
    | c more st s e Hp Hd
    | c more st s e ts log r Hp Hd Hc _ IH
    | c more st s e ts e' Hp Hd Hc Hs
    | c more st s e ts st1 log1 e' Hp Hd Hc Hs Hn
    | c more st s e ts st1 log1 st2 Hp Hd Hc Hs Hn
    | c more st s e ts st1 log1 st2 e' Hp Hd Hc Hs Hn Hu
    | c more st s e ts st1 log1 st2 st3 log r Hp Hd Hc Hs Hn Hu _ IH ];
    intros HI Hpend Hentry.
  - split; [constructor| |eauto|].
    + intros ? ? ? Hin. by apply elem_of_nil in Hin.
    + by intros ? ? [= <- <-].
  - pose proof (blame_bad_time c e Hp) as Hb. split.
    + constructor; [|constructor]. by intros s [=].
    + intros code' c' e'' Hin Hb'.
      apply list_elem_of_singleton in Hin as [= -> ->]. congruence.
    + intros [Hf _]. rewrite (Hf c) in Hb by left. done.
    + by intros ? ? [=].
  - pose proof (blame_bad_day c s e st HI Hp Hd) as Hb. split.
    + constructor; [|constructor]. by intros ? [=].
    + intros code' c' e'' Hin Hb'.
      apply list_elem_of_singleton in Hin as [= -> ->]. congruence.
    + intros [Hf _]. rewrite (Hf c) in Hb by left. done.
    + by intros ? ? [=].
  - destruct (IH HI Hpend Hentry) as [I1 I2 I3 I4]. split.
    + constructor; [by intros ? [=]|done].
    + intros code' c' e' Hin Hb'.
      apply elem_of_cons in Hin as [[= -> ->]|Hin]; [|by eapply I2].
      rewrite (blame_none c s e ts st HI Hp Hd) in Hb'. done.
    + intros (Hf & ? & ?). apply I3. split; [|done].
      intros c' ?. apply Hf. by right.
    + done.
  - exfalso. unfold scheduleCourse in Hs. destruct Hentry as [? E].
    by rewrite E in Hs.
  - pose proof (Inv_schedule parse codes codes_NoDup _ _ _ _ _ _ _
                  HI unitCode_known Hp Hd Hc Hs) as HI1.
    destruct (pending_schedule _ _ _ _ _ Hpend Hs) as [Hpend1 Hentry1].
    destruct (next_safe _ _ _ HI1 Hpend1 Hentry1 Hn) as [I1 I2 I3 I4]. split.
    + constructor; [by intros ? [=]|].
      constructor; [by intros ? [= <-]|done].
    + intros code' c' e'' Hin Hb'.
      apply elem_of_cons in Hin as [[= -> ->]|Hin].
      { rewrite (blame_none c s e ts st HI Hp Hd) in Hb'. done. }
      apply elem_of_cons in Hin as [[=]|Hin]. by eapply I2.
    + intros (_ & ? & ?). by apply I3.
    + by intros ? ? [=].
  - pose proof (Inv_schedule parse codes codes_NoDup _ _ _ _ _ _ _
                  HI unitCode_known Hp Hd Hc Hs) as HI1.
    destruct (pending_schedule _ _ _ _ _ Hpend Hs) as [Hpend1 Hentry1].
    destruct (next_safe _ _ _ HI1 Hpend1 Hentry1 Hn) as [I1 I2 I3 I4]. split.
    + constructor; [by intros ? [=]|].
      constructor; [by intros ? [= <-]|done].
    + intros code' c' e'' Hin Hb'.
      apply elem_of_cons in Hin as [[= -> ->]|Hin].
      { rewrite (blame_none c s e ts st HI Hp Hd) in Hb'. done. }
      apply elem_of_cons in Hin as [[=]|Hin]. by eapply I2.
    + eauto.
    + done.
  - exfalso.
    destruct (pending_schedule _ _ _ _ _ Hpend Hs) as [Hpend1 [entry1 E1]].
    pose proof (next_outcome _ _ _ _ E1 Hn) as Hr. simpl in Hr.
    pose proof (restored_lookup _ _ _ _ Hr unitCode_fresh) as E2.
    unfold unscheduleCourse in Hu. by rewrite E2, E1 in Hu.
  - pose proof (Inv_schedule parse codes codes_NoDup _ _ _ _ _ _ _
                  HI unitCode_known Hp Hd Hc Hs) as HI1.
    destruct (pending_schedule _ _ _ _ _ Hpend Hs) as [Hpend1 Hentry1].
    destruct (next_safe _ _ _ HI1 Hpend1 Hentry1 Hn) as [I1 I2 I3 I4].
    destruct Hentry1 as [entry1 E1].
    pose proof (next_outcome _ _ _ _ E1 Hn) as Hr. simpl in Hr.
    pose proof (uncommit_restores _ _ _ _ _ _ _ _ _ unitCode_fresh Hs Hr Hu)
      as Hr3.
    destruct (Inv_restored parse codes _ _ _ HI Hpend Hr3 later_known)
      as [HI3 Hpend3].
    assert (Hentry3 : is_Some (finalSchedule st3 !! unitCode)).
    { by rewrite (restored_lookup _ _ _ _ Hr3 unitCode_fresh). }
    destruct (IH HI3 Hpend3 Hentry3) as [J1 J2 J3 J4]. split.
    + constructor; [by intros ? [=]|].
      constructor; [by intros ? [= <-]|].
      apply Forall_app. split; [done|].
      constructor; [by intros ? [= <-]|done].
    + intros code' c' e'' Hin Hb'.
      apply elem_of_cons in Hin as [[= -> ->]|Hin].
      { rewrite (blame_none c s e ts st HI Hp Hd) in Hb'. done. }
      apply elem_of_cons in Hin as [[=]|Hin].
      apply elem_of_app in Hin as [Hin|Hin].
      { specialize (I2 _ _ _ Hin Hb'). done. }
      apply elem_of_cons in Hin as [[=]|Hin]. by eapply J2.
    + intros (Hf & ? & ?). apply J3. split; [|done].
      intros c' ?. apply Hf. by right.
    + done.
Qed.

End Candidates.

Lemma scheduleActivities_safe later unitCode nextUnit activities :
  unitCode ∈ codes → unitCode ∉ unitCodes later →
  (∀ u, u ∈ later → Unit.unitCode u ∈ codes) →
  units_outcome later nextUnit →
  units_safe parse codes later nextUnit →
  activities_safe parse codes later unitCode activities
                  (scheduleActivities parse nextUnit unitCode activities).
Proof.
  intros Hk Hfresh Hl Hout Hsafe.
  induction activities as [|a acts IH]; intros st log r HI Hp He Hrun.
  - simpl in Hrun. eapply guarded_run_weaken; [|by eapply Hsafe].
    by intros [_ ?].
  - simpl in Hrun. apply tryCourses_run in Hrun.
    eapply guarded_run_weaken; last first.
    + eapply (TryRun_safe later unitCode acts); eauto.
      by apply scheduleActivities_outcome.
    + intros [Ha Hu]. split; [apply Ha; left|]. split; [|done].
      intros a' ?. apply Ha. by right.
Qed.

Lemma scheduleUnitsFrom_safe units :
  NoDup (unitCodes units) →
  (∀ u, u ∈ units → Unit.unitCode u ∈ codes) →
  units_safe parse codes units (scheduleUnitsFrom parse units).
Proof.
  induction units as [|u later IH]; intros Hnd Hk st log r HI Hp Hrun.
  - injection Hrun as <- <-. split; [constructor| |eauto|].
    + intros ? ? ? Hin. by apply elem_of_nil in Hin.
    + by intros ? ? [= <- <-].
  - simpl in Hnd. apply NoDup_cons in Hnd as [Hfresh Hnd].
    assert (Hl : ∀ u', u' ∈ later → Unit.unitCode u' ∈ codes).
    { intros u' ?. apply Hk. by right. }
    cbn [scheduleUnitsFrom] in Hrun.
    apply bind_run in Hrun
      as [(e & Hup & ->)|(log1 & [] & st0 & log2 & Hup & Hrun & ->)].
    { apply update_run in Hup as [(e' & [=] & _)|(? & _ & _ & [=])]. }
    apply update_run in Hup as [(e & [=] & _)|(st0' & Hinit & -> & [= <-])].
    destruct (Inv_initialize parse codes u st st0 HI (Hp u ltac:(left))
                (Hk u ltac:(left)) Hinit) as (HI0 & Hs0 & He0).
    assert (Hp0 : pending later st0).
    { intros u' Hu'. rewrite Hs0. apply Hp. by right. }
    pose proof (scheduleActivities_safe later (Unit.unitCode u)
                  (scheduleUnitsFrom parse later)
                  (sortActivitiesByCourseOptions (Unit.activities u))
                  (Hk u ltac:(left)) Hfresh Hl
                  (scheduleUnitsFrom_outcome parse later Hnd)
                  (IH Hnd Hl) st0 log2 r HI0 Hp0
                  ltac:(rewrite He0; eauto) Hrun) as [I1 I2 I3 I4].
    split.
    + constructor; [by intros ? [= <-]|done].
    + intros code' c' e' Hin Hb. simpl in Hin.
      apply elem_of_cons in Hin as [[=]|Hin]. by eapply I2.
    + intros Hf. apply I3. split.
      * intros a Ha. apply (Hf u); [left|].
        by rewrite <- (sortActivities_perm (Unit.activities u)).
      * intros u' ?. apply Hf. by right.
    + done.
Qed.

End Safety.

(* ===================================================================== *)
(** * From lists over keys to the maps themselves *)
(* ===================================================================== *)



(** The sessions of different positions of a keyed list. *)
Lemma keyed_positions {K A} (R : K * A -> K * A -> Prop) (f : K -> list A)
    (keys : list K) k1 k2 i j a b :
  (∀ x y, R x y → R y x) →
  NoDup keys → ForallOrdPairs R (keyed f keys) →
  k1 ∈ keys → k2 ∈ keys →
  f k1 !! i = Some a → f k2 !! j = Some b → (k1, i) ≠ (k2, j) →
  R (k1, a) (k2, b).
Proof.
  intros Hsym Hnd HR H1 H2 Ha Hb Hne.
  induction keys as [|k keys IH]; [by apply elem_of_nil in H1|].
  apply NoDup_cons in Hnd as [Hk Hnd].
  unfold keyed in HR. simpl in HR. fold (keyed f keys) in HR.
  apply ForallOrdPairs_app_inv in HR as (R1 & R2 & R3).
  assert (Hin : ∀ k' n x, f k' !! n = Some x → x ∈ f k').
  { intros. by eapply list_elem_of_lookup_2. }
  apply elem_of_cons in H1 as [->|H1], H2 as [->|H2].
  - assert (i ≠ j) by congruence.
    apply (ForallOrdPairs_lookup R Hsym _ i j _ _ R1); [done|..].
    + by rewrite list_lookup_fmap, Ha.
    + by rewrite list_lookup_fmap, Hb.
  - apply R3.
    + apply list_elem_of_fmap. eauto.
    + apply elem_of_keyed. eauto.
  - apply Hsym, R3.
    + apply list_elem_of_fmap. eauto.
    + apply elem_of_keyed. eauto.
  - by apply IH.
Qed.

(* ===================================================================== *)
(** * The units built from the input *)
(* ===================================================================== *)

Lemma Object_entries_perm {V} (o : list (string * V)) : Object_entries o ≡ₚ o.
Proof.
  unfold Object_entries.
  rewrite (Array_sort_perm (fun a : string * V => default 0 (array_index a.1))).
  induction o as [|kv o IH]; [done|].
  rewrite !filter_cons. destruct (decide (is_Some (array_index kv.1))).
  - rewrite decide_False by tauto. simpl. by rewrite IH.
  - rewrite decide_True by done. rewrite <- Permutation_middle. by rewrite IH.
Qed.

Lemma push_group_Some groups c groups' :
  push_group groups c = Some groups' →
  groups'.*1 = groups.*1
  ∧ Course.activity c ∈ groups.*1
  ∧ ∀ k cs, (k, cs) ∈ groups' →
            (k, cs) ∈ groups
            ∨ k = Course.activity c
              ∧ ∃ cs0, (k, cs0) ∈ groups ∧ cs = cs0 ++ [c].
Proof.
  revert groups'. induction groups as [|[k0 cs0] groups IH]; intros groups';
    simpl; [done|].
  destruct (String.eqb k0 (Course.activity c)) eqn:E.
  - apply String.eqb_eq in E as ->. intros [= <-]. simpl.
    split; [done|]. split; [left|].
    intros k cs Hin. apply elem_of_cons in Hin as [[= -> ->]|Hin].
    + right. split; [done|]. exists cs0. split; [left|done].
    + left. by right.
  - destruct (push_group groups c) as [g|]; [|done]. simpl.
    intros [= <-]. destruct (IH g eq_refl) as (I1 & I2 & I3).
    split; [by rewrite !fmap_cons, I1|]. split; [by right|].
    intros k cs Hin. apply elem_of_cons in Hin as [[= -> ->]|Hin].
    + left. left.
    + destruct (I3 k cs Hin) as [?|(-> & cs1 & ? & ->)].
      * left. by right.
      * right. split; [done|]. exists cs1. split; [by right|done].
Qed.

Lemma push_group_None groups c :
  push_group groups c = None → Course.activity c ∉ groups.*1.
Proof.
  induction groups as [|[k0 cs0] groups IH]; simpl.
  - intros _ H. by apply elem_of_nil in H.
  - destruct (String.eqb k0 (Course.activity c)) eqn:E; [done|].
    apply String.eqb_neq in E.
    destruct (push_group groups c); [done|]. intros _.
    apply not_elem_of_cons. split; [done|by apply IH].
Qed.

Lemma fold_group_step_inl courses e :
  fold_left group_step courses (inl e) = inl e.
Proof. induction courses; simpl; auto. Qed.

Lemma group_step_grouped seen groups c groups' :
  grouped seen groups → group_step (inr groups) c = inr groups' →
  grouped (seen ++ [c]) groups'.
Proof.
  intros (G1 & G2 & G3). unfold group_step.
  destruct (push_group groups c) as [g|] eqn:E.
  - intros [= <-]. apply push_group_Some in E as (E1 & E2 & E3).
    split; [by rewrite E1|]. split.
    + intros k. rewrite E1, map_app, elem_of_app, G2. simpl.
      split; [by left|]. intros [?|Hk]; [done|].
      apply list_elem_of_singleton in Hk as ->. by apply G2.
    + intros k cs c' Hin Hc'. rewrite elem_of_app.
      destruct (E3 k cs Hin) as [?|(-> & cs0 & Hin0 & ->)].
      * destruct (G3 k cs c'); auto.
      * apply elem_of_app in Hc' as [Hc'|Hc'].
        -- destruct (G3 _ cs0 c' Hin0 Hc'); auto.
        -- apply list_elem_of_singleton in Hc' as ->. split; [done|].
           right. left.
  - apply push_group_None in E. case_bool_decide; [done|]. intros [= <-].
    unfold grouped. rewrite fmap_app. simpl. split.
    + apply NoDup_app. split; [done|]. split.
      * intros k Hk Hk'. apply list_elem_of_singleton in Hk' as ->. done.
      * apply NoDup_singleton.
    + split.
      * intros k. rewrite map_app, !elem_of_app, G2. done.
      * intros k cs c' Hin Hc'. rewrite elem_of_app.
        apply elem_of_app in Hin as [Hin|Hin].
        -- destruct (G3 k cs c'); auto.
        -- apply list_elem_of_singleton in Hin as [= -> ->].
           apply list_elem_of_singleton in Hc' as ->. split; [done|].
           right. left.
Qed.

Lemma fold_group_step_grouped courses seen groups groups' :
  grouped seen groups →
  fold_left group_step courses (inr groups) = inr groups' →
  grouped (seen ++ courses) groups'.
Proof.
  revert seen groups. induction courses as [|c courses IH];
    intros seen groups HG; cbn [fold_left].
  - intros [= <-]. by rewrite app_nil_r.
  - destruct (group_step (inr groups) c) as [e|g] eqn:E.
    + by rewrite fold_group_step_inl.
    + intros H. rewrite (assoc_L _ seen [c] courses : seen ++ c :: courses = (seen ++ [c]) ++ courses).
      eapply IH; [|done]. by eapply group_step_grouped.
Qed.

Lemma activityGroups_grouped courses groups :
  activityGroups courses = inr groups → grouped courses groups.
Proof.
  intros H. apply (fold_group_step_grouped courses [] []); [|done].
  split; [constructor|]. split; [done|].
  intros k cs c Hin. by apply elem_of_nil in Hin.
Qed.

(** Without a tag among the inherited names the grouping does not throw. *)
Lemma fold_group_step_total courses groups :
  (∀ c, c ∈ courses → Course.activity c ∉ Object_prototype_keys) →
  ∃ groups', fold_left group_step courses (inr groups) = inr groups'.
Proof.
  revert groups. induction courses as [|c courses IH]; intros groups H;
    cbn [fold_left].
  - eauto.
  - assert (∃ g, group_step (inr groups) c = inr g) as [g ->].
    { unfold group_step. destruct (push_group groups c); [eauto|].
      rewrite bool_decide_eq_false_2; [eauto|]. apply H. left. }
    apply IH. intros c' ?. apply H. by right.
Qed.

Lemma buildUnit_built entry u : buildUnit entry = inr u → built_from entry u.
Proof.
  unfold buildUnit.
  destruct (activityGroups (UnitData.courses entry.2)) as [e|groups] eqn:E;
    [done|].
  intros [= <-]. apply activityGroups_grouped in E as (G1 & G2 & G3).
  split; [done|]. split; [done|]. simpl. split.
  - intros a c Ha Hc. apply list_elem_of_fmap in Ha as ([k cs] & -> & Hg).
    rewrite Object_entries_perm in Hg. simpl in *. by apply (G3 k cs).
  - rewrite map_map. simpl.
    change (map (fun x : string * list Course.t => x.1) (Object_entries groups))
      with ((Object_entries groups).*1).
    rewrite Object_entries_perm. apply NoDup_Permutation; [done| |].
    + apply NoDup_remove_dups.
    + intros k. by rewrite G2, elem_of_remove_dups.
Qed.

Lemma buildUnits_built entries units :
  buildUnits entries = inr units → Forall2 built_from entries units.
Proof.
  revert units. induction entries as [|entry entries IH]; intros units; simpl.
  - intros [= <-]. constructor.
  - destruct (buildUnit entry) as [e|u] eqn:E; [done|].
    destruct (buildUnits entries) as [e|us]; [done|].
    intros [= <-]. constructor; [by apply buildUnit_built|by apply IH].
Qed.

Lemma buildUnits_total entries :
  (∀ entry c, entry ∈ entries → c ∈ UnitData.courses entry.2 →
              Course.activity c ∉ Object_prototype_keys) →
  ∃ units, buildUnits entries = inr units.
Proof.
  induction entries as [|entry entries IH]; intros H; simpl; [eauto|].
  unfold buildUnit, activityGroups.
  destruct (fold_group_step_total (UnitData.courses entry.2) [])
    as [groups ->].
  { intros c. apply H. left. }
  destruct IH as [us ->]; [|eauto].
  intros entry' c ?. apply H. by right.
Qed.

Lemma built_unitCodes entries units :
  Forall2 built_from entries units → unitCodes units = entries.*1.
Proof.
  induction 1 as [|entry u entries units [E _] _ IH]; [done|].
  unfold unitCodes in *. simpl. by rewrite E, IH.
Qed.

(** The units the search of [filterCourseList] runs on. *)
Lemma search_units courseList units :
  CourseList_wf courseList →
  buildUnits (Object_entries courseList) = inr units →
  NoDup (unitCodes (sortUnits units))
  ∧ unitCodes (sortUnits units) ≡ₚ courseList.*1
  ∧ (∀ u, u ∈ sortUnits units →
          ∃ entry, entry ∈ courseList ∧ built_from entry u)
  ∧ (∀ entry, entry ∈ courseList →
              ∃ u, u ∈ sortUnits units ∧ built_from entry u).
Proof.
  intros Hwf Hb. apply buildUnits_built in Hb.
  assert (Hc : unitCodes (sortUnits units) ≡ₚ courseList.*1).
  { unfold unitCodes. rewrite sortUnits_perm.
    fold (unitCodes units). rewrite (built_unitCodes _ _ Hb).
    by rewrite Object_entries_perm. }
  split; [by rewrite Hc|]. split; [done|]. split.
  - intros u Hu. rewrite sortUnits_perm in Hu.
    apply list_elem_of_lookup in Hu as [i Hi].
    destruct (Forall2_lookup_r _ _ _ _ _ Hb Hi) as (entry & He & ?).
    exists entry. split; [|done].
    rewrite <- (Object_entries_perm courseList).
    by eapply list_elem_of_lookup_2.
  - intros entry He. rewrite <- (Object_entries_perm courseList) in He.
    apply list_elem_of_lookup in He as [i Hi].
    destruct (Forall2_lookup_l _ _ _ _ _ Hb Hi) as (u & Hu & ?).
    exists u. split; [|done]. rewrite sortUnits_perm.
    by eapply list_elem_of_lookup_2.
Qed.

Lemma pending_initial units : pending units initialState.
Proof. intros u _. unfold sessions_of. simpl. by rewrite lookup_empty. Qed.

(** The run of the search of [filterCourseList]. *)
Lemma search_run courseList units log r :
  CourseList_wf courseList →
  buildUnits (Object_entries courseList) = inr units →
  scheduleUnitsFrom inlineCourseTime (sortUnits units) initialState = (log, r) →
  guarded_run inlineCourseTime (unitCodes (sortUnits units))
              (fine_units inlineCourseTime (sortUnits units)) log r
  ∧ match r with
    | inl _ => True
    | inr (true, st') => completed (sortUnits units) initialState st'
    | inr (false, st') => restored (sortUnits units) initialState st'
    end.
Proof.
  intros Hwf Hb Hrun.
  destruct (search_units _ _ Hwf Hb) as (Hnd & _ & _ & _). split.
  - eapply (scheduleUnitsFrom_safe inlineCourseTime _ Hnd (sortUnits units) Hnd);
      [|apply Inv_initial; done|apply pending_initial|done].
    intros u Hu. unfold unitCodes. apply list_elem_of_fmap. eauto.
  - by apply (scheduleUnitsFrom_outcome inlineCourseTime _ Hnd _ log).
Qed.

Lemma filterCourseList_run_inv courseList log r :
  filterCourseList_run courseList = (log, r) →
  (∃ e, buildUnits (Object_entries courseList) = inl e ∧ log = []
        ∧ r = inl e)
  ∨ ∃ units r',
      buildUnits (Object_entries courseList) = inr units
      ∧ scheduleUnitsFrom inlineCourseTime (sortUnits units) initialState
        = (log, r')
      ∧ r = match r' with
            | inl e => inl e
            | inr (true, st) => inr (Some (finalSchedule st))
            | inr (false, _) => inr None
            end.
Proof.
  unfold filterCourseList_run.
  destruct (buildUnits (Object_entries courseList)) as [e|units].
  - intros [= <- <-]. left. eauto.
  - unfold scheduleUnits. simpl drop.
    destruct (scheduleUnitsFrom _ _ _) as [log' [e|[[|] st]]] eqn:E;
      intros [= <- <-]; right; eauto.
Qed.

(* ===================================================================== *)
(** * The schedule [filterCourseList] returns *)
(* ===================================================================== *)

Lemma conflict_sym parse c1 c2 : conflict parse c1 c2 → conflict parse c2 c1.
Proof.
  intros (Hd & s1 & e1 & s2 & e2 & H1 & H2 & Hl & Hg).
  split; [done|]. exists s2, e2, s1, e1.
  rewrite JS_gt_lt in Hg. by rewrite JS_gt_lt.
Qed.

Lemma Inv_no_conflict parse codes st :
  Inv parse codes st →
  ForallOrdPairs (fun a b : string * Course.t => ¬ conflict parse a.2 b.2)
                 (committed_over codes st).
Proof.
  intros [_ _ H3 H4].
  set (Rr := fun x y : result (string * ScheduledTime.t) =>
               ∀ a b, x = inr a → y = inr b → compatible a b).
  assert (ForallOrdPairs Rr (map inr (indexed_over weekdays st))) as H.
  { apply ForallOrdPairs_map. eapply ForallOrdPairs_impl; [|exact H4].
    intros a b Hab a' b' [= <-] [= <-]. done. }
  eapply (ForallOrdPairs_perm Rr) in H; [| |symmetry; exact H3].
  - apply (proj1 (ForallOrdPairs_map
                    (fun kc : string * Course.t => slot_of parse kc.1 kc.2)
                    Rr _)) in H.
    eapply ForallOrdPairs_impl; [|exact H].
    intros [k1 c1] [k2 c2] HR (Hd & s1 & e1 & s2 & e2 & H1 & H2 & Hl & Hg).
    simpl in *. unfold slot_of in HR. rewrite H1, H2 in HR.
    by apply (HR _ _ eq_refl eq_refl).
  - intros x y HR a b -> ->. by apply compatible_sym, HR.
Qed.

Lemma picks_one_per_activity entry u cs :
  built_from entry u →
  picks (sortActivitiesByCourseOptions (Unit.activities u)) cs →
  one_per_activity entry.2 cs.
Proof.
  intros (_ & _ & Hb & Ht) Hp.
  pose proof (sortActivities_perm (Unit.activities u)) as Hperm.
  assert (Hall : ∀ a c,
            a ∈ sortActivitiesByCourseOptions (Unit.activities u) →
            c ∈ Activity.courses a →
            Course.activity c = Activity.activityType a
            ∧ c ∈ UnitData.courses entry.2).
  { intros a c Ha. apply Hb. by rewrite <- Hperm. }
  unfold one_per_activity. rewrite <- Ht, <- Hperm. clear Hperm Ht Hb.
  unfold picks in Hp.
  generalize dependent (sortActivitiesByCourseOptions (Unit.activities u)).
  intros acts Hp. induction Hp as [|a c acts cs Hc _ IH]; intros Hall.
  - split; [|done]. intros c Hc. by apply elem_of_nil in Hc.
  - destruct IH as [I1 I2].
    { intros a' c' ?. apply Hall. by right. }
    destruct (Hall a c ltac:(left) Hc) as [E Hin]. split.
    + intros c' Hc'. apply elem_of_cons in Hc' as [->|?]; auto.
    + simpl. by rewrite E, I2.
Qed.



(** C1 — Soundness of returned schedules.  When [filterCourseList] returns
    a schedule for an input object, any two sessions at different places
    of it (different unit codes, or different positions in the session
    list of one unit) that are on the same day and whose time texts parse
    to the intervals from [s1] to [e1] and from [s2] to [e2] do not
    conflict: not both [s1 < e2] and [e1 > s2]. *)
Theorem returned_schedule_sound courseList schedule :
  CourseList_wf courseList →
  filterCourseList courseList = inr (Some schedule) →
  ∀ code1 code2 entry1 entry2 i j c1 c2 s1 e1 s2 e2,
    schedule !! code1 = Some entry1 →
    schedule !! code2 = Some entry2 →
    Entry.courses entry1 !! i = Some c1 →
    Entry.courses entry2 !! j = Some c2 →
    (code1, i) ≠ (code2, j) →
    Course.day c1 = Course.day c2 →
    parseCourseTimes inlineCourseTime (Course.time c1) = inr (s1, e1) →
    parseCourseTimes inlineCourseTime (Course.time c2) = inr (s2, e2) →
    ¬ (JS.lt s1 e2 = true ∧ JS.gt e1 s2 = true).
Proof.
  intros Hwf Hret. unfold filterCourseList in Hret.
  destruct (filterCourseList_run courseList) as [log r] eqn:E. simpl in Hret.
  subst r. apply filterCourseList_run_inv in E
    as [(e & _ & _ & [=])|(units & r' & Hb & Hrun & Hr)].
  destruct r' as [?|[[|] st]]; try discriminate. injection Hr as ->.
  destruct (search_units _ _ Hwf Hb) as (Hnd & _).
  destruct (search_run _ _ _ _ Hwf Hb Hrun) as [[_ _ _ Hfin] _].
  specialize (Hfin _ _ eq_refl).
  pose proof (Inv_no_conflict _ _ _ Hfin) as Hnc.
  intros code1 code2 entry1 entry2 i j c1 c2 s1 e1 s2 e2
         He1 He2 Hc1 Hc2 Hne Hday Hp1 Hp2 [Hl Hg].
  eapply (keyed_positions _ (sessions_of (finalSchedule st)) _
                          code1 code2 i j c1 c2 _ Hnd Hnc).
  - apply (inv_codes _ _ _ Hfin). by rewrite He1.
  - apply (inv_codes _ _ _ Hfin). by rewrite He2.
  - unfold sessions_of. by rewrite He1.
  - unfold sessions_of. by rewrite He2.
  - done.
  - split; [done|]. exists s1, e1, s2, e2. done.
  Unshelve. intros x y H Hc. by apply H, conflict_sym.
Qed.

Lemma returned_schedule_sound_witness :
  ∃ schedule,
    filterCourseList backtrack_input = inr (Some schedule)
    ∧ ∀ code1 code2 entry1 entry2 i j c1 c2 s1 e1 s2 e2,
        schedule !! code1 = Some entry1 →
        schedule !! code2 = Some entry2 →
        Entry.courses entry1 !! i = Some c1 →
        Entry.courses entry2 !! j = Some c2 →
        (code1, i) ≠ (code2, j) →
        Course.day c1 = Course.day c2 →
        parseCourseTimes inlineCourseTime (Course.time c1) = inr (s1, e1) →
        parseCourseTimes inlineCourseTime (Course.time c2) = inr (s2, e2) →
        ¬ (JS.lt s1 e2 = true ∧ JS.gt e1 s2 = true).
Proof.
  eexists. split; [vm_compute; reflexivity|].
  apply (returned_schedule_sound backtrack_input).
  - apply (bool_decide_unpack _). vm_compute. exact I.
  - vm_compute. reflexivity.
Defined.



(* ===================================================================== *)
(** * Backtracking *)
(* ===================================================================== *)

(** C5 — Backtracking restoration, as the code has it.  When a candidate
    of the unit [unitCode] has been committed in the state [st] and the
    call for the remaining activities and the later units returns false,
    the uncommit does not throw and leaves the index exactly as it was in
    [st], and the schedule as it was in [st] under every key but the codes
    of later units the failed call has initialised: such a key holds the
    unit's name and an empty session list. *)
Theorem backtracking_restores parse later unitCode activities course
    startTime endTime st st1 log st2 :
  NoDup (unitCode :: unitCodes later) →
  scheduleCourse unitCode course startTime endTime st = inr st1 →
  scheduleActivities parse (scheduleUnitsFrom parse later) unitCode activities
                     st1 = (log, inr (false, st2)) →
  ∃ st3,
    unscheduleCourse unitCode (Course.day course) st2 = inr st3
    ∧ scheduledTimesPerDay st3 = scheduledTimesPerDay st
    ∧ finalSchedule st3 !! unitCode = finalSchedule st !! unitCode
    ∧ ∀ k, finalSchedule st3 !! k = finalSchedule st !! k
           ∨ ∃ u, u ∈ later ∧ k = Unit.unitCode u
                  ∧ finalSchedule st3 !! k = Some (entry_of u []).
Proof.
  intros Hnd Hs Hrun. apply NoDup_cons in Hnd as [Hfresh Hnd].
  pose proof Hs as Hs'.
  apply scheduleCourse_inr in Hs' as (entry & He & Hf1 & _).
  assert (E1 : finalSchedule st1 !! unitCode
               = Some {| Entry.unitName := Entry.unitName entry;
                         Entry.courses := Entry.courses entry ++ [course] |}).
  { by rewrite Hf1, lookup_insert_eq. }
  pose proof (scheduleActivities_outcome parse later unitCode
                (scheduleUnitsFrom parse later) activities Hfresh
                (scheduleUnitsFrom_outcome parse later Hnd)
                _ _ _ _ E1 Hrun) as Hr.
  simpl in Hr.
  destruct (unscheduleCourse unitCode (Course.day course) st2)
    as [e|st3] eqn:Hu.
  { unfold unscheduleCourse in Hu.
    by rewrite (restored_lookup _ _ _ _ Hr Hfresh), E1 in Hu. }
  exists st3. split; [done|].
  pose proof (uncommit_restores _ _ _ _ _ _ _ _ _ Hfresh Hs Hr Hu) as Hr3.
  split; [apply Hr3|]. split; [by apply (restored_lookup later)|apply Hr3].
Qed.

Lemma backtracking_restores_witness :
  ∃ st1 log st2,
    scheduleCourse "A" clash_A (JS.Instant 32400000) (JS.Instant 36000000)
                   entered_A = inr st1
    ∧ scheduleActivities inlineCourseTime
        (scheduleUnitsFrom inlineCourseTime [unit_B]) "A" [] st1
      = (log, inr (false, st2))
    ∧ ∃ st3,
        unscheduleCourse "A" (Course.day clash_A) st2 = inr st3
        ∧ scheduledTimesPerDay st3 = scheduledTimesPerDay entered_A
        ∧ finalSchedule st3 !! "A" = finalSchedule entered_A !! "A"
        ∧ ∀ k, finalSchedule st3 !! k = finalSchedule entered_A !! k
               ∨ ∃ u, u ∈ [unit_B] ∧ k = Unit.unitCode u
                      ∧ finalSchedule st3 !! k = Some (entry_of u []).
Proof.
  eexists _, _, _. split; [vm_compute; reflexivity|].
  split; [vm_compute; reflexivity|].
  eapply (backtracking_restores inlineCourseTime [unit_B] "A" [] clash_A
            (JS.Instant 32400000) (JS.Instant 36000000) entered_A).
  - apply (bool_decide_unpack _). vm_compute. exact I.
  - vm_compute. reflexivity.
  - vm_compute. reflexivity.
Defined.

(** C5, as stated, fails on [clash_input]: the session of unit A is tried
    in the state [before], committed, and the call that follows fails on
    unit B; the state [after] the uncommit is not [before], it has gained
    an entry for B. *)
Lemma backtracking_leaves_entries :
  ∃ before committed inner after,
    filterCourseList_log clash_input
    = [Initialised before; Tried "A" clash_A; Scheduled committed;
       Initialised inner; Tried "B" clash_B; Unscheduled after]
    ∧ after ≠ before
    ∧ scheduledTimesPerDay after = scheduledTimesPerDay before
    ∧ finalSchedule before !! "B" = None
    ∧ finalSchedule after !! "B"
      = Some {| Entry.unitName := "B"; Entry.courses := [] |}.
Proof.
  eexists _, _, _, _. split; [vm_compute; reflexivity|].
  split; [|split; [|split]].
  - intros H. apply (f_equal (fun s => finalSchedule s !! "B")) in H.
    vm_compute in H. discriminate.
  - vm_compute. reflexivity.
  - vm_compute. reflexivity.
  - vm_compute. reflexivity.
Qed.

(* ===================================================================== *)
(** * Exceptions of the search *)
(* ===================================================================== *)

Lemma convertTo24Hour_error time12h :
  ¬ TimeShape (JS.trim time12h) →
  convertTo24Hour time12h = inl (InvalidTimeFormat time12h).
Proof.
  rewrite <- time_regex_shape. unfold convertTo24Hour.
  destruct (time_regex (JS.trim time12h)) as [[[? ?] ?]|]; [|done].
  intros H. exfalso. apply H. eauto.
Qed.

Lemma convertTo24Hour_value time12h :
  TimeShape (JS.trim time12h) → ∃ t, convertTo24Hour time12h = inr t.
Proof.
  rewrite <- time_regex_shape. unfold convertTo24Hour.
  intros [[[? ?] ?] ->]. eauto.
Qed.

Lemma parseCourseTimes_bad_start timeRange start rest :
  JS.split " - " timeRange = start :: rest →
  ¬ TimeShape (JS.trim start) →
  parseCourseTimes inlineCourseTime timeRange = inl (InvalidTimeFormat start).
Proof.
  intros Hs Hn. unfold parseCourseTimes. rewrite Hs. simpl.
  by rewrite (convertTo24Hour_error _ Hn).
Qed.

Lemma parseCourseTimes_bad_end timeRange start end_ rest :
  JS.split " - " timeRange = start :: end_ :: rest →
  TimeShape (JS.trim start) →
  ¬ TimeShape (JS.trim end_) →
  parseCourseTimes inlineCourseTime timeRange = inl (InvalidTimeFormat end_).
Proof.
  intros Hs Hy Hn. unfold parseCourseTimes. rewrite Hs. simpl.
  destruct (convertTo24Hour_value _ Hy) as [t ->].
  by rewrite (convertTo24Hour_error _ Hn).
Qed.

(** A tried candidate with an exception to raise ends [filterCourseList]
    with that exception. *)
Lemma tried_blame courseList unitCode course e :
  CourseList_wf courseList →
  Tried unitCode course ∈ filterCourseList_log courseList →
  blame inlineCourseTime course = Some e →
  filterCourseList courseList = inl e.
Proof.
  intros Hwf Hin Hb. unfold filterCourseList, filterCourseList_log in *.
  destruct (filterCourseList_run courseList) as [log r] eqn:E. simpl in *.
  apply filterCourseList_run_inv in E
    as [(e' & _ & -> & _)|(units & r' & Hbuild & Hrun & ->)].
  { by apply elem_of_nil in Hin. }
  destruct (search_run _ _ _ _ Hwf Hbuild Hrun) as [[_ Hblame _ _] _].
  by rewrite (Hblame _ _ _ Hin Hb).
Qed.

(** C4 — Invalid time input aborts scheduling, as the code has it.  A
    time text is read when the search tries its session.  When the search
    of [filterCourseList] on an input object tries a session whose time
    text, cut at the separator, has a start part that is not a clock time
    of the expected shape, or has such a start part and an end part that
    is not, [filterCourseList] throws the invalid-format error of that
    part, and more generally any exception of the parsing of that text; an
    exception is neither a schedule nor the infeasibility marker.  The
    single session 9:00 - 10:00am gives the invalid-format error of 9:00. *)
Theorem invalid_time_aborts courseList unitCode course start rest :
  CourseList_wf courseList →
  Tried unitCode course ∈ filterCourseList_log courseList →
  JS.split " - " (Course.time course) = start :: rest →
  (¬ TimeShape (JS.trim start) →
   filterCourseList courseList = inl (InvalidTimeFormat start))
  ∧ (∀ end_ rest',
       rest = end_ :: rest' → TimeShape (JS.trim start) →
       ¬ TimeShape (JS.trim end_) →
       filterCourseList courseList = inl (InvalidTimeFormat end_))
  ∧ (∀ e, parseCourseTimes inlineCourseTime (Course.time course) = inl e →
          filterCourseList courseList = inl e)
  ∧ (∀ e, filterCourseList courseList = inl e →
          filterCourseList courseList ≠ inr None
          ∧ ∀ schedule, filterCourseList courseList ≠ inr (Some schedule))
  ∧ filterCourseList malformed_input = inl (InvalidTimeFormat "9:00").
Proof.
  intros Hwf Hin Hsplit.
  assert (Hgen : ∀ e, parseCourseTimes inlineCourseTime (Course.time course)
                      = inl e → filterCourseList courseList = inl e).
  { intros e He. eapply tried_blame; [done..|]. unfold blame. by rewrite He. }
  split; [|split; [|split; [done|split]]].
  - intros Hn. apply Hgen. by eapply parseCourseTimes_bad_start.
  - intros end_ rest' -> Hy Hn. apply Hgen.
    by eapply parseCourseTimes_bad_end.
  - intros e ->. split; [done|]. by intros schedule.
  - vm_compute. reflexivity.
Qed.

Lemma invalid_time_aborts_witness :
  filterCourseList malformed_input = inl (InvalidTimeFormat "9:00").
Proof.
  refine (proj1 (invalid_time_aborts malformed_input "CS101"
                   (session "CS101" "LEC" "MON" "9:00 - 10:00am")
                   "9:00" ["10:00am"] _ _ _) _).
  - apply (bool_decide_unpack _). vm_compute. exact I.
  - apply (bool_decide_unpack _). vm_compute. exact I.
  - vm_compute. reflexivity.
  - rewrite <- time_regex_shape. vm_compute. intros [? [=]].
Defined.

(** C4, as stated, fails on [unreached_malformed_input]: it holds a
    session with the time text 9:00 - 10:00am, whose parsing throws, and
    [filterCourseList] returns a schedule, the first session of the
    lecture being free. *)
Lemma unreached_malformed_time :
  (∃ unitCode unitData c,
     (unitCode, unitData) ∈ unreached_malformed_input
     ∧ c ∈ UnitData.courses unitData
     ∧ Course.time c = "9:00 - 10:00am"
     ∧ parseCourseTimes inlineCourseTime (Course.time c)
       = inl (InvalidTimeFormat "9:00"))
  ∧ ∃ schedule,
      filterCourseList unreached_malformed_input = inr (Some schedule).
Proof.
  split.
  - eexists _, _, _. split; [left|]. split; [right; left|].
    split; [reflexivity|]. vm_compute. reflexivity.
  - eexists. vm_compute. reflexivity.
Qed.

(** C10 — Weekday-only day tags, as the code has it.  The index starts
    with exactly the keys MON, TUE, WED, THU and FRI.  When the search of
    [filterCourseList] on an input object tries a session whose time text
    parses and whose day is none of the five, the index has no array for
    that day and [filterCourseList] throws a type error: it returns
    neither a schedule nor the infeasibility marker. *)
Theorem weekday_only_index courseList unitCode course startTime endTime :
  CourseList_wf courseList →
  Tried unitCode course ∈ filterCourseList_log courseList →
  parseCourseTimes inlineCourseTime (Course.time course)
  = inr (startTime, endTime) →
  Course.day course ∉ ["MON"; "TUE"; "WED"; "THU"; "FRI"] →
  dom (scheduledTimesPerDay initialState)
  = {[ "MON"; "TUE"; "WED"; "THU"; "FRI" ]}
  ∧ scheduledTimesPerDay initialState !! Course.day course = None
  ∧ filterCourseList courseList = inl TypeError.
Proof.
  intros Hwf Hin Hp Hd. split; [by vm_compute|]. split.
  - apply not_elem_of_dom. simpl. rewrite initialTimes_dom.
    by rewrite elem_of_list_to_set.
  - eapply tried_blame; [done..|]. unfold blame. rewrite Hp.
    by rewrite bool_decide_eq_false_2.
Qed.

Lemma weekday_only_index_witness :
  dom (scheduledTimesPerDay initialState)
  = {[ "MON"; "TUE"; "WED"; "THU"; "FRI" ]}
  ∧ scheduledTimesPerDay initialState !! "SAT" = None
  ∧ filterCourseList weekend_input = inl TypeError.
Proof.
  apply (weekday_only_index weekend_input "CS101"
           (session "CS101" "LEC" "SAT" "9:00am - 10:00am")
           (JS.Instant 32400000) (JS.Instant 36000000)).
  - apply (bool_decide_unpack _). vm_compute. exact I.
  - apply (bool_decide_unpack _). vm_compute. exact I.
  - vm_compute. reflexivity.
  - apply (bool_decide_unpack _). vm_compute. exact I.
Defined.

(** C10, as stated, fails on [unreached_weekend_input]: it holds a session
    on SAT, and [filterCourseList] returns a schedule, the Monday session
    of the lecture being free. *)
Lemma unreached_weekend_day :
  (∃ unitCode unitData c,
     (unitCode, unitData) ∈ unreached_weekend_input
     ∧ c ∈ UnitData.courses unitData
     ∧ Course.day c = "SAT")
  ∧ ∃ schedule,
      filterCourseList unreached_weekend_input = inr (Some schedule).
Proof.
  split.
  - eexists _, _, _. split; [left|]. split; [right; left|]. reflexivity.
  - eexists. vm_compute. reflexivity.
Qed.

(* ===================================================================== *)
(** * Infeasible inputs *)
(* ===================================================================== *)

Lemma keyed_snd {K A} (f : K -> list A) (keys : list K) :
  map snd (keyed f keys) = concat (map f keys).
Proof.
  unfold keyed. induction keys as [|k keys IH]; simpl; [done|].
  rewrite map_app, map_map, IH. simpl. by rewrite map_id.
Qed.

(** A schedule the search returns is a full assignment without
    conflicts. *)
Lemma success_feasible courseList units log st :
  CourseList_wf courseList →
  buildUnits (Object_entries courseList) = inr units →
  scheduleUnitsFrom inlineCourseTime (sortUnits units) initialState
  = (log, inr (true, st)) →
  Feasible inlineCourseTime courseList.
Proof.
  intros Hwf Hb Hrun.
  destruct (search_units _ _ Hwf Hb) as (Hnd & Hcodes & Hfrom & Hto).
  destruct (search_run _ _ _ _ Hwf Hb Hrun) as [[_ _ _ Hfin] [Hout Hin]].
  specialize (Hfin _ _ eq_refl).
  exists (map (fun entry => sessions_of (finalSchedule st) entry.1) courseList).
  split.
  - apply Forall2_fmap_r, Forall_Forall2_diag, Forall_forall.
    intros [unitCode unitData] He.
    destruct (Hto _ He) as (u & Hu & Hbuilt).
    destruct (Hin u Hu) as (cs & Hcs & Hp).
    pose proof Hbuilt as (Ec & _). simpl in *.
    unfold sessions_of. rewrite <- Ec, Hcs. simpl.
    apply (picks_one_per_activity _ _ _ Hbuilt Hp).
  - pose proof (Inv_no_conflict _ _ _ Hfin) as Hnc.
    eapply (ForallOrdPairs_perm _) in Hnc; last first.
    { apply keyed_perm. exact Hcodes. }
    { intros x y H Hc. by apply H, conflict_sym. }
    apply (proj2 (ForallOrdPairs_map snd
                    (fun c1 c2 => ¬ conflict inlineCourseTime c1 c2) _)) in Hnc.
    rewrite keyed_snd in Hnc. by rewrite map_map in Hnc.
Qed.

Lemma fine_units_built courseList units :
  CourseList_wf courseList →
  buildUnits (Object_entries courseList) = inr units →
  (∀ unitCode unitData c,
     (unitCode, unitData) ∈ courseList → c ∈ UnitData.courses unitData →
     blame inlineCourseTime c = None) →
  fine_units inlineCourseTime (sortUnits units).
Proof.
  intros Hwf Hb Hfine u Hu a Ha c Hc.
  destruct (search_units _ _ Hwf Hb) as (_ & _ & Hfrom & _).
  destruct (Hfrom u Hu) as ([unitCode unitData] & He & _ & _ & Hsess & _).
  apply (Hfine unitCode unitData c He). by apply (Hsess a c).
Qed.

(** Two sessions that conflict and are each the only one of its activity
    in some unit leave no assignment. *)
Lemma conflict_infeasible parse (courseList : CourseList) unitCode unitData
    c1 c2 :
  (unitCode, unitData) ∈ courseList →
  c1 ∈ UnitData.courses unitData → c2 ∈ UnitData.courses unitData →
  Course.activity c1 ≠ Course.activity c2 →
  (∀ c, c ∈ UnitData.courses unitData →
        Course.activity c = Course.activity c1 → c = c1) →
  (∀ c, c ∈ UnitData.courses unitData →
        Course.activity c = Course.activity c2 → c = c2) →
  conflict parse c1 c2 →
  ¬ Feasible parse courseList.
Proof.
  intros He H1 H2 Hne U1 U2 Hc (choice & Hall & Hnc).
  apply list_elem_of_lookup in He as [n Hn].
  destruct (Forall2_lookup_l _ _ _ _ _ Hall Hn) as (chosen & Hch & Hin & Hp).
  simpl in Hin, Hp.
  assert (Hpick : ∀ c, c ∈ UnitData.courses unitData →
                       (∀ c', c' ∈ UnitData.courses unitData →
                              Course.activity c' = Course.activity c → c' = c) →
                       c ∈ chosen).
  { intros c Hc0 Hu.
    assert (Course.activity c ∈ map Course.activity chosen) as Ht.
    { rewrite Hp, elem_of_remove_dups. apply list_elem_of_fmap. eauto. }
    apply list_elem_of_fmap in Ht as (c' & E & Hc').
    by rewrite <- (Hu c' (Hin c' Hc') (eq_sym E)). }
  assert (∀ c, c ∈ chosen → In c (concat choice)) as Hcc.
  { intros c Hc0. apply in_concat. exists chosen.
    split; apply list_elem_of_In; [|done]. by eapply list_elem_of_lookup_2. }
  destruct (ForallOrdPairs_In Hnc c1 c2 (Hcc _ (Hpick c1 H1 U1))
              (Hcc _ (Hpick c2 H2 U2))) as [->|[H|H]].
  - done.
  - done.
  - by apply H, conflict_sym.
Qed.

(** C7 — Distinct infeasibility result, as the code has it.  For an input
    object all of whose sessions have a time text that parses, a day among
    the five of the index and an activity tag that names no inherited
    member of an object: when no full assignment without conflicts
    exists, [filterCourseList] returns [null], which is not a schedule,
    not even the empty one, and throws nothing. *)
Theorem infeasible_returns_null courseList :
  CourseList_wf courseList →
  (∀ unitCode unitData c,
     (unitCode, unitData) ∈ courseList → c ∈ UnitData.courses unitData →
     (∃ startTime endTime,
        parseCourseTimes inlineCourseTime (Course.time c)
        = inr (startTime, endTime))
     ∧ Course.day c ∈ ["MON"; "TUE"; "WED"; "THU"; "FRI"]
     ∧ Course.activity c ∉ Object_prototype_keys) →
  ¬ Feasible inlineCourseTime courseList →
  filterCourseList courseList = inr None
  ∧ filterCourseList courseList ≠ inr (Some ∅)
  ∧ ∀ e, filterCourseList courseList ≠ inl e.
Proof.
  intros Hwf Hok Hinf.
  assert (filterCourseList courseList = inr None) as ->;
    [|split; [done|split; [done|by intros e]]].
  destruct (buildUnits_total (Object_entries courseList)) as [units Hb].
  { intros [unitCode unitData] c He Hc.
    rewrite Object_entries_perm in He. by apply (Hok unitCode unitData c). }
  unfold filterCourseList.
  destruct (filterCourseList_run courseList) as [log r] eqn:E. simpl.
  apply filterCourseList_run_inv in E
    as [(e & Hb' & _)|(units' & r' & Hb' & Hrun & ->)]; [congruence|].
  rewrite Hb in Hb'. injection Hb' as <-.
  destruct (search_run _ _ _ _ Hwf Hb Hrun) as [[_ _ Hret _] _].
  destruct Hret as (b & st & ->).
  { apply (fine_units_built courseList); [done..|].
    intros unitCode unitData c He Hc.
    destruct (Hok _ _ _ He Hc) as ((s & e & Hp) & Hd & _).
    unfold blame. rewrite Hp. by rewrite bool_decide_eq_true_2. }
  destruct b; [|done].
  exfalso. apply Hinf. by eapply success_feasible.
Qed.

Lemma forced_conflict_infeasible :
  ¬ Feasible inlineCourseTime forced_conflict_input.
Proof.
  eapply (conflict_infeasible inlineCourseTime forced_conflict_input "CS101" _
            (session "CS101" "LEC" "MON" "9:00am - 10:00am")
            (session "CS101" "TUT" "MON" "9:00am - 10:00am")).
  - left.
  - left.
  - right. left.
  - done.
  - intros c Hc E. simpl in Hc.
    apply elem_of_cons in Hc as [->|Hc]; [done|].
    apply list_elem_of_singleton in Hc as ->. done.
  - intros c Hc E. simpl in Hc.
    apply elem_of_cons in Hc as [->|Hc]; [done|].
    apply list_elem_of_singleton in Hc as ->. done.
  - split; [done|]. eexists _, _, _, _.
    split; [vm_compute; reflexivity|]. split; [vm_compute; reflexivity|].
    split; reflexivity.
Qed.

Lemma infeasible_returns_null_witness :
  filterCourseList forced_conflict_input = inr None
  ∧ filterCourseList forced_conflict_input ≠ inr (Some ∅)
  ∧ ∀ e, filterCourseList forced_conflict_input ≠ inl e.
Proof.
  apply (infeasible_returns_null forced_conflict_input).
  - apply (bool_decide_unpack _). vm_compute. exact I.
  - intros unitCode unitData c He Hc.
    apply list_elem_of_singleton in He as [= -> ->]. simpl in Hc.
    apply elem_of_cons in Hc as [->|Hc];
      [|apply list_elem_of_singleton in Hc as ->].
    + split; [eexists _, _; vm_compute; reflexivity|].
      split; apply (bool_decide_unpack _); vm_compute; exact I.
    + split; [eexists _, _; vm_compute; reflexivity|].
      split; apply (bool_decide_unpack _); vm_compute; exact I.
  - exact forced_conflict_infeasible.
Defined.

(** C7, as stated, fails on [weekend_clash_input]: every time text parses
    and no assignment exists, the lecture and the practical clashing, yet
    [filterCourseList] throws a type error on the Saturday tutorial
    instead of returning [null]. *)
Lemma weekend_clash_throws :
  (∀ unitCode unitData c,
     (unitCode, unitData) ∈ weekend_clash_input →
     c ∈ UnitData.courses unitData →
     parseCourseTimes inlineCourseTime (Course.time c)
     = inr (JS.Instant 32400000, JS.Instant 36000000))
  ∧ ¬ Feasible inlineCourseTime weekend_clash_input
  ∧ filterCourseList weekend_clash_input = inl TypeError
  ∧ filterCourseList weekend_clash_input ≠ inr None.
Proof.
  split; [|split; [|split]].
  - intros unitCode unitData c He Hc.
    apply list_elem_of_singleton in He as [= -> ->]. simpl in Hc.
    repeat (apply elem_of_cons in Hc as [->|Hc]; [vm_compute; reflexivity|]).
    by apply elem_of_nil in Hc.
  - eapply (conflict_infeasible inlineCourseTime weekend_clash_input "CS101" _
              (session "CS101" "LEC" "MON" "9:00am - 10:00am")
              (session "CS101" "PRA" "MON" "9:00am - 10:00am")).
    + left.
    + left.
    + right. right. left.
    + done.
    + intros c Hc E. simpl in Hc.
      repeat (apply elem_of_cons in Hc as [->|Hc]; [done|]).
      by apply elem_of_nil in Hc.
    + intros c Hc E. simpl in Hc.
      repeat (apply elem_of_cons in Hc as [->|Hc]; [done|]).
      by apply elem_of_nil in Hc.
    + split; [done|]. eexists _, _, _, _.
      split; [vm_compute; reflexivity|]. split; [vm_compute; reflexivity|].
      split; reflexivity.
  - vm_compute. reflexivity.
  - vm_compute. discriminate.
Qed.

(* ===================================================================== *)
(** * The search misses no assignment *)
(* ===================================================================== *)

Lemma hasTimeConflict_app ts ts' startTime endTime :
  hasTimeConflict (ts ++ ts') startTime endTime
  = hasTimeConflict ts startTime endTime
    || hasTimeConflict ts' startTime endTime.
Proof.
  induction ts as [|t ts IH]; simpl; [done|].
  by destruct (JS.lt startTime _ && JS.gt endTime _).
Qed.

Lemma free_same parse st st' c :
  scheduledTimesPerDay st' = scheduledTimesPerDay st →
  free parse st c → free parse st' c.
Proof. unfold free. by intros ->. Qed.

Lemma plan_ok_same parse st st' l :
  scheduledTimesPerDay st' = scheduledTimesPerDay st →
  plan_ok parse st l → plan_ok parse st' l.
Proof.
  intros E [H1 H2]. split; [|done].
  eapply Forall_impl; [exact H1|]. intros c. by apply free_same.
Qed.

Lemma free_schedule parse unitCode c startTime endTime ts st st1 c' :
  parseCourseTimes parse (Course.time c) = inr (startTime, endTime) →
  scheduledTimesPerDay st !! Course.day c = Some ts →
  scheduleCourse unitCode c startTime endTime st = inr st1 →
  free parse st c' → ¬ conflict parse c c' →
  free parse st1 c'.
Proof.
  intros Hp Hd Hs Hf Hnc s' e' Hp'.
  apply scheduleCourse_inr in Hs as (_ & _ & _ & Hi1).
  specialize (Hf s' e' Hp'). unfold times_of in *. rewrite Hi1.
  destruct (decide (Course.day c' = Course.day c)) as [E|Hne].
  - rewrite E, lookup_alter_eq, Hd in *. simpl in *.
    rewrite hasTimeConflict_app, Hf. simpl.
    destruct (JS.lt s' endTime && JS.gt e' startTime) eqn:Hov; [|done].
    exfalso. apply Hnc. apply andb_true_iff in Hov as [Hl Hg].
    split; [done|]. exists startTime, endTime, s', e'.
    rewrite JS_gt_lt in Hg. rewrite JS_gt_lt. done.
  - by rewrite lookup_alter_ne.
Qed.

Lemma scheduleCourse_entry unitCode c startTime endTime st st1 :
  scheduleCourse unitCode c startTime endTime st = inr st1 →
  ∃ entry1, finalSchedule st1 !! unitCode = Some entry1.
Proof.
  intros Hs. apply scheduleCourse_inr in Hs as (entry & _ & -> & _).
  rewrite lookup_insert_eq. eauto.
Qed.

Section Completeness.
Variable parse : option string -> result JS.Date.
Variable later : list Unit.t.
Variable unitCode : string.
Variable activities : list Activity.t.
Variable next : M bool.
Hypothesis unitCode_fresh : unitCode ∉ unitCodes later.
Hypothesis next_outcome : outcome_of later unitCode activities next.
Hypothesis next_complete :
  ∀ st log st',
    is_Some (finalSchedule st !! unitCode) →
    next st = (log, inr (false, st')) → ¬ solvable parse later activities st.

Lemma TryRun_complete courses st log r :
  TryRun parse next unitCode courses st log r →
  ∀ st', r = inr (false, st') →
  is_Some (finalSchedule st !! unitCode) →
  ¬ ∃ c0 chosen plans,
      c0 ∈ courses ∧ picks activities chosen ∧ unit_plans later plans
      ∧ plan_ok parse st (c0 :: chosen ++ concat plans).
Proof.
  induction 1 as
    [ st | | | c more st s e ts log r Hp Hd Hc _ IH | | |
    | | c more st s e ts st1 log1 st2 st3 log r Hp Hd Hc Hs Hn Hu _ IH ];
    intros st' Hr Hentry (c0 & chosen & plans & Hin & Hpk & Hpl & Hfree & Hno);
    try discriminate.
  - by apply elem_of_nil in Hin.
  - apply elem_of_cons in Hin as [->|Hin].
    + apply Forall_cons in Hfree as [Hf _].
      specialize (Hf s e Hp). unfold times_of in Hf. rewrite Hd in Hf.
      simpl in Hf. congruence.
    + apply (IH st' Hr Hentry). exists c0, chosen, plans. by repeat split.
  - destruct (scheduleCourse_entry _ _ _ _ _ _ Hs) as [entry1 E1].
    pose proof (next_outcome _ _ _ _ E1 Hn) as Hrest. simpl in Hrest.
    pose proof (uncommit_restores _ _ _ _ _ _ _ _ _ unitCode_fresh Hs Hrest Hu)
      as Hr3.
    apply elem_of_cons in Hin as [->|Hin].
    + apply (next_complete st1 log1 st2); [by rewrite E1|done|].
      exists chosen, plans. split; [done|]. split; [done|].
      apply Forall_cons in Hfree as [_ Hfree].
      apply ForallOrdPairs_cons_inv in Hno as [Hc0 Hno]. split; [|done].
      apply Forall_forall. intros c' Hc'.
      rewrite Forall_forall in Hfree, Hc0.
      eapply free_schedule; eauto.
    + assert (Hentry3 : is_Some (finalSchedule st3 !! unitCode)).
      { by rewrite (restored_lookup _ _ _ _ Hr3 unitCode_fresh). }
      apply (IH st' Hr Hentry3). exists c0, chosen, plans.
      split; [done|]. split; [done|]. split; [done|].
      apply (plan_ok_same parse st); [apply Hr3|done].
Qed.

End Completeness.

Section UnitsComplete.
Variable parse : option string -> result JS.Date.

Lemma scheduleActivities_complete later unitCode nextUnit activities :
  unitCode ∉ unitCodes later →
  units_outcome later nextUnit →
  (∀ st log st', nextUnit st = (log, inr (false, st')) →
                 ¬ solvable parse later [] st) →
  ∀ st log st',
    is_Some (finalSchedule st !! unitCode) →
    scheduleActivities parse nextUnit unitCode activities st
    = (log, inr (false, st')) →
    ¬ solvable parse later activities st.
Proof.
  intros Hfresh Hout Hnext.
  induction activities as [|a acts IH]; intros st log st' Hentry Hrun.
  - simpl in Hrun. by eapply Hnext.
  - simpl in Hrun. apply tryCourses_run in Hrun.
    intros (chosen & plans & Hpk & Hpl & Hok).
    unfold picks in Hpk. apply Forall2_cons_inv_l in Hpk
      as (c0 & chosen' & Hc0 & Hpk & ->).
    eapply (TryRun_complete parse later unitCode acts); eauto.
    + by apply scheduleActivities_outcome.
    + exists c0, chosen', plans. split; [done|]. split; [done|].
      split; [done|]. exact Hok.
Qed.

Lemma scheduleUnitsFrom_complete units :
  NoDup (unitCodes units) →
  ∀ st log st',
    scheduleUnitsFrom parse units st = (log, inr (false, st')) →
    ¬ solvable parse units [] st.
Proof.
  induction units as [|u later IH]; intros Hnd st log st' Hrun.
  - discriminate.
  - simpl in Hnd. apply NoDup_cons in Hnd as [Hfresh Hnd].
    cbn [scheduleUnitsFrom] in Hrun.
    apply bind_run in Hrun
      as [(e & _ & [=])|(log1 & [] & st0 & log2 & Hup & Hrun & ->)].
    apply update_run in Hup as [(e & [=] & _)|(st0' & Hinit & _ & [= <-])].
    injection Hinit as <-.
    intros (chosen & plans & Hpk & Hpl & Hok).
    unfold picks in Hpk. apply Forall2_nil_inv_l in Hpk as ->.
    unfold unit_plans in Hpl. apply Forall2_cons_inv_l in Hpl
      as (l & plans' & Hl & Hpl & ->).
    eapply (scheduleActivities_complete later (Unit.unitCode u)
              (scheduleUnitsFrom parse later)
              (sortActivitiesByCourseOptions (Unit.activities u))
              Hfresh (scheduleUnitsFrom_outcome parse later Hnd) (IH Hnd));
      [|exact Hrun|].
    + simpl. rewrite lookup_insert_eq. eauto.
    + exists l, plans'. split; [done|]. split; [done|].
      by apply (plan_ok_same parse st).
Qed.

End UnitsComplete.

(** Every session is in the group of its tag. *)
Lemma push_group_covers groups c groups' :
  push_group groups c = Some groups' →
  (∀ k cs, (k, cs) ∈ groups →
           ∃ cs', (k, cs') ∈ groups' ∧ ∀ x, x ∈ cs → x ∈ cs')
  ∧ ∃ cs', (Course.activity c, cs') ∈ groups' ∧ c ∈ cs'.
Proof.
  revert groups'. induction groups as [|[k0 cs0] groups IH]; intros groups';
    simpl; [done|].
  destruct (String.eqb k0 (Course.activity c)) eqn:E.
  - apply String.eqb_eq in E as ->. intros [= <-]. split.
    + intros k cs Hin. apply elem_of_cons in Hin as [[= -> ->]|Hin].
      * exists (cs0 ++ [c]). split; [left|]. intros x ?.
        apply elem_of_app. by left.
      * exists cs. split; [by right|done].
    + exists (cs0 ++ [c]). split; [left|]. apply elem_of_app. right. left.
  - destruct (push_group groups c) as [g|]; [|done]. simpl.
    intros [= <-]. destruct (IH g eq_refl) as (I1 & cs' & I2 & I3). split.
    + intros k cs Hin. apply elem_of_cons in Hin as [[= -> ->]|Hin].
      * exists cs0. split; [left|done].
      * destruct (I1 k cs Hin) as (cs1 & ? & ?). exists cs1.
        split; [by right|done].
    + exists cs'. split; [by right|done].
Qed.

Lemma fold_group_step_covers courses (seen : list Course.t) groups groups' :
  (∀ c, c ∈ seen → ∃ cs, (Course.activity c, cs) ∈ groups ∧ c ∈ cs) →
  fold_left group_step courses (inr groups) = inr groups' →
  ∀ c, c ∈ seen ++ courses →
       ∃ cs, (Course.activity c, cs) ∈ groups' ∧ c ∈ cs.
Proof.
  revert seen groups. induction courses as [|c0 courses IH];
    intros seen groups Hseen; cbn [fold_left].
  - intros [= <-]. by rewrite app_nil_r.
  - destruct (group_step (inr groups) c0) as [e|g] eqn:E.
    { by rewrite fold_group_step_inl. }
    intros H c Hc.
    rewrite (assoc_L _ seen [c0] courses
              : seen ++ c0 :: courses = (seen ++ [c0]) ++ courses) in Hc.
    apply (IH (seen ++ [c0]) g); [|done..].
    clear c Hc. intros c Hc. unfold group_step in E.
    destruct (push_group groups c0) as [g'|] eqn:Ep.
    + injection E as <-. apply push_group_covers in Ep as (P1 & P2).
      apply elem_of_app in Hc as [Hc|Hc].
      * destruct (Hseen c Hc) as (cs & Hin & Hcs).
        destruct (P1 _ _ Hin) as (cs' & ? & Hsub). exists cs'. auto.
      * by apply list_elem_of_singleton in Hc as ->.
    + case_bool_decide; [done|]. injection E as <-.
      apply elem_of_app in Hc as [Hc|Hc].
      * destruct (Hseen c Hc) as (cs & Hin & Hcs). exists cs.
        split; [|done]. apply elem_of_app. by left.
      * apply list_elem_of_singleton in Hc as ->. exists [c0].
        split; [|left]. apply elem_of_app. right. left.
Qed.

Lemma buildUnit_covers entry u c :
  buildUnit entry = inr u → c ∈ UnitData.courses entry.2 →
  ∃ a, a ∈ Unit.activities u
       ∧ Activity.activityType a = Course.activity c
       ∧ c ∈ Activity.courses a.
Proof.
  unfold buildUnit.
  destruct (activityGroups (UnitData.courses entry.2)) as [e|groups] eqn:E;
    [done|].
  intros [= <-] Hc. simpl.
  destruct (fold_group_step_covers _ [] [] groups
              (fun c H => False_ind _ (proj1 (elem_of_nil c) H)) E c Hc)
    as (cs & Hin & Hcs).
  exists {| Activity.activityType := Course.activity c;
            Activity.courses := cs |}.
  split; [|done]. apply list_elem_of_fmap.
  exists (Course.activity c, cs). split; [done|].
  by rewrite Object_entries_perm.
Qed.

Lemma buildUnits_each entries units :
  buildUnits entries = inr units →
  Forall2 (fun entry u => buildUnit entry = inr u) entries units.
Proof.
  revert units. induction entries as [|entry entries IH]; intros units; simpl.
  - intros [= <-]. constructor.
  - destruct (buildUnit entry) as [e|u] eqn:E; [done|].
    destruct (buildUnits entries) as [e|us]; [done|].
    intros [= <-]. constructor; [done|by apply IH].
Qed.

Lemma NoDup_map_elem {A B} (f : A -> B) (l : list A) x y :
  NoDup (map f l) → x ∈ l → y ∈ l → f x = f y → x = y.
Proof.
  induction l as [|z l IH]; simpl; intros Hnd Hx Hy E.
  { by apply elem_of_nil in Hx. }
  apply NoDup_cons in Hnd as [Hz Hnd].
  apply elem_of_cons in Hx as [->|Hx], Hy as [->|Hy]; auto.
  - exfalso. apply Hz. rewrite E. apply list_elem_of_fmap. eauto.
  - exfalso. apply Hz. rewrite <- E. apply list_elem_of_fmap. eauto.
Qed.

Lemma map_eq_Forall2 {A B C} (f : A -> C) (g : B -> C) l k :
  map f l = map g k →
  Forall2 (fun a b => f a = g b ∧ a ∈ l ∧ b ∈ k) l k.
Proof.
  revert k. induction l as [|a l IH]; intros [|b k] E; simpl in E;
    try discriminate; [constructor|].
  injection E as E1 E2. constructor; [split; [done|split; left]|].
  eapply Forall2_impl; [apply IH, E2|].
  intros x y (? & ? & ?). split; [done|]. split; by right.
Qed.

(** The sessions chosen for a unit, put in the order the search takes the
    unit's activities. *)
Lemma plan_of_choice entry u chosen :
  buildUnit entry = inr u →
  one_per_activity entry.2 chosen →
  ∃ l, l ≡ₚ chosen
       ∧ picks (sortActivitiesByCourseOptions (Unit.activities u)) l.
Proof.
  intros Hb [Hsub Htags].
  pose proof (buildUnit_built _ _ Hb) as (_ & _ & _ & Hacts).
  pose proof (sortActivities_perm (Unit.activities u)) as Hperm.
  assert (Hnd : NoDup (map Activity.activityType (Unit.activities u))).
  { rewrite Hacts. apply NoDup_remove_dups. }
  assert (Hp : map Activity.activityType
                   (sortActivitiesByCourseOptions (Unit.activities u))
               ≡ₚ map Course.activity chosen).
  { by rewrite Hperm, Hacts, Htags. }
  apply Permutation_map_inv in Hp as (l & Heq & Hl).
  exists l. split; [done|].
  apply map_eq_Forall2 in Heq. unfold picks.
  eapply Forall2_impl; [exact Heq|]. simpl.
  intros a c (E & Ha & Hc).
  rewrite Hperm in Ha. rewrite <- Hl in Hc.
  destruct (buildUnit_covers _ _ c Hb (Hsub c Hc)) as (a' & Ha' & E' & Hin).
  by rewrite (NoDup_map_elem _ _ a a' Hnd Ha Ha' (eq_trans E (eq_sym E'))).
Qed.

Lemma Forall2_chain {A B C} (P : A -> B -> Prop) (Q : A -> C -> Prop)
    (l : list A) (k : list B) (m : list C) :
  Forall2 P l k → Forall2 Q l m →
  Forall2 (fun b c => ∃ a, P a b ∧ Q a c) k m.
Proof.
  intros H. revert m. induction H as [|a b l k Hab _ IH]; intros m Hm.
  - apply Forall2_nil_inv_l in Hm as ->. constructor.
  - apply Forall2_cons_inv_l in Hm as (c & m' & ? & ? & ->).
    constructor; [eauto|auto].
Qed.

Lemma Forall2_plans {A} (R : A -> list Course.t -> Prop)
    (P : A -> list Course.t -> Prop) (l : list A) (k : list (list Course.t)) :
  (∀ a c, R a c → ∃ p, p ≡ₚ c ∧ P a p) →
  Forall2 R l k →
  ∃ plans, Forall2 P l plans ∧ concat plans ≡ₚ concat k.
Proof.
  intros HR. induction 1 as [|a c l k Hac _ (plans & I1 & I2)].
  - exists []. split; [constructor|done].
  - destruct (HR a c Hac) as (p & Hp & HP). exists (p :: plans).
    split; [by constructor|]. simpl. by rewrite Hp, I2.
Qed.

Lemma concat_perm {A} (l k : list (list A)) : l ≡ₚ k → concat l ≡ₚ concat k.
Proof.
  induction 1 as [|x l k _ IH|x y l|l1 l2 l3 _ IH1 _ IH2]; simpl.
  - done.
  - by rewrite IH.
  - rewrite !app_assoc. by rewrite (Permutation_app_comm y x).
  - by etransitivity.
Qed.

(** An assignment of the input is a plan for the units of the search. *)
Lemma Feasible_solvable courseList units :
  buildUnits (Object_entries courseList) = inr units →
  Feasible inlineCourseTime courseList →
  solvable inlineCourseTime (sortUnits units) [] initialState.
Proof.
  intros Hb (choice & Hall & Hno).
  apply buildUnits_each in Hb.
  destruct (Permutation_Forall2 (symmetry (Object_entries_perm courseList)) Hall)
    as (choice1 & Hc1 & Hall1).
  pose proof (Forall2_chain _ _ _ _ _ Hb Hall1) as Hu.
  destruct (Permutation_Forall2 (symmetry (sortUnits_perm units)) Hu)
    as (choice2 & Hc2 & Hu2).
  assert (HR : ∀ u c,
            (∃ entry : string * UnitData.t,
               buildUnit entry = inr u ∧ one_per_activity entry.2 c) →
            ∃ p, p ≡ₚ c
                 ∧ picks (sortActivitiesByCourseOptions (Unit.activities u)) p).
  { intros u c (entry & ? & ?). by eapply plan_of_choice. }
  destruct (Forall2_plans _ _ _ _ HR Hu2) as (plans & Hplans & Hconcat).
  exists [], plans. split; [constructor|]. split; [done|]. simpl. split.
  - apply Forall_forall. intros c _ s e _.
    unfold times_of. simpl.
    destruct (initialTimes !! Course.day c) as [ts|] eqn:E; [|done].
    assert (ts = []) as ->; [|done].
    unfold initialTimes in E.
    repeat (rewrite lookup_insert in E; case_decide; [congruence|]).
    by rewrite lookup_empty in E.
  - eapply (ForallOrdPairs_perm _); [| |exact Hno].
    + intros x y H Hc. by apply H, conflict_sym.
    + rewrite Hconcat. rewrite <- (concat_perm _ _ Hc2).
      by rewrite <- (concat_perm _ _ Hc1).
Qed.

(** X1 — The search misses no assignment.  When [filterCourseList] returns
    [null] for an input object, the input has no full assignment without
    conflicts: the sessions the loop skips or gives up are only ones that
    cannot be completed. *)
Theorem null_means_infeasible courseList :
  CourseList_wf courseList →
  filterCourseList courseList = inr None →
  ¬ Feasible inlineCourseTime courseList.
Proof.
  intros Hwf Hret Hfeas. unfold filterCourseList in Hret.
  destruct (filterCourseList_run courseList) as [log r] eqn:E. simpl in Hret.
  subst r. apply filterCourseList_run_inv in E
    as [(e & _ & _ & [=])|(units & r' & Hb & Hrun & Hr)].
  destruct r' as [?|[[|] st]]; try discriminate.
  destruct (search_units _ _ Hwf Hb) as (Hnd & _).
  eapply (scheduleUnitsFrom_complete inlineCourseTime _ Hnd); [exact Hrun|].
  by apply (Feasible_solvable courseList).
Qed.

Lemma null_means_infeasible_witness :
  ¬ Feasible inlineCourseTime forced_conflict_input.
Proof.
  apply (null_means_infeasible forced_conflict_input).
  - apply (bool_decide_unpack _). vm_compute. exact I.
  - vm_compute. reflexivity.
Defined.

(** X2 — The scheduler decides feasibility.  For an input object all of
    whose sessions have a time text that parses, a day among the five of
    the index and an activity tag that names no inherited member of an
    object, [filterCourseList] returns a schedule exactly when a full
    assignment without conflicts exists. *)
Theorem schedule_iff_feasible courseList :
  CourseList_wf courseList →
  (∀ unitCode unitData c,
     (unitCode, unitData) ∈ courseList → c ∈ UnitData.courses unitData →
     (∃ startTime endTime,
        parseCourseTimes inlineCourseTime (Course.time c)
        = inr (startTime, endTime))
     ∧ Course.day c ∈ ["MON"; "TUE"; "WED"; "THU"; "FRI"]
     ∧ Course.activity c ∉ Object_prototype_keys) →
  (∃ schedule, filterCourseList courseList = inr (Some schedule))
  ↔ Feasible inlineCourseTime courseList.
Proof.
  intros Hwf Hok.
  destruct (buildUnits_total (Object_entries courseList)) as [units Hb].
  { intros [unitCode unitData] c He Hc.
    rewrite Object_entries_perm in He. by apply (Hok unitCode unitData c). }
  unfold filterCourseList.
  destruct (filterCourseList_run courseList) as [log r] eqn:E. simpl.
  apply filterCourseList_run_inv in E
    as [(e & Hb' & _)|(units' & r' & Hb' & Hrun & ->)]; [congruence|].
  rewrite Hb in Hb'. injection Hb' as <-.
  destruct (search_units _ _ Hwf Hb) as (Hnd & _).
  destruct (search_run _ _ _ _ Hwf Hb Hrun) as [[_ _ Hret _] _].
  destruct Hret as (b & st & ->).
  { apply (fine_units_built courseList); [done..|].
    intros unitCode unitData c He Hc.
    destruct (Hok _ _ _ He Hc) as ((s & e & Hp) & Hd & _).
    unfold blame. rewrite Hp. by rewrite bool_decide_eq_true_2. }
  destruct b; split.
  - intros _. by eapply success_feasible.
  - eauto.
  - intros [? [=]].
  - intros Hf. exfalso.
    eapply (scheduleUnitsFrom_complete inlineCourseTime _ Hnd); [exact Hrun|].
    by apply (Feasible_solvable courseList).
Qed.

Lemma schedule_iff_feasible_witness :
  (∃ schedule, filterCourseList forced_conflict_input = inr (Some schedule))
  ↔ Feasible inlineCourseTime forced_conflict_input.
Proof.
  apply (schedule_iff_feasible forced_conflict_input).
  - apply (bool_decide_unpack _). vm_compute. exact I.
  - intros unitCode unitData c He Hc.
    apply list_elem_of_singleton in He as [= -> ->]. simpl in Hc.
    apply elem_of_cons in Hc as [->|Hc];
      [|apply list_elem_of_singleton in Hc as ->].
    + split; [eexists _, _; vm_compute; reflexivity|].
      split; apply (bool_decide_unpack _); vm_compute; exact I.
    + split; [eexists _, _; vm_compute; reflexivity|].
      split; apply (bool_decide_unpack _); vm_compute; exact I.
Defined.

(* ===================================================================== *)
(** * From a clock text to its instant *)
(* ===================================================================== *)

Lemma chars_str l : JS.chars (JS.str l) = l.
Proof. apply String.list_ascii_of_string_of_list_ascii. Qed.

Lemma str_chars s : JS.str (JS.chars s) = s.
Proof. apply String.string_of_list_ascii_of_string. Qed.

Lemma digit_val_range c : JS.is_digit c = true → 0 <= JS.digit_val c <= 9.
Proof.
  unfold JS.is_digit, JS.digit_val. rewrite andb_true_iff, !N.leb_le. lia.
Qed.

(** Printing the hour and the minute with two digits and reading the text
    back as a date, for all the numbers two digits can give. *)
Lemma printed_clock_date h m pm :
  0 <= h < 100 → 0 <= m < 100 →
  JS.newDate_1970
    (JS.padStart0 2 (JS.toString (hour24 h pm)) +:+ ":"
     +:+ JS.padStart0 2 (JS.toString m) +:+ ":00")
  = clock_date h m pm.
Proof.
  intros Hh Hm.
  assert (forallb (fun h =>
            forallb (fun m =>
              forallb (fun pm =>
                bool_decide
                  (JS.newDate_1970
                     (JS.padStart0 2 (JS.toString (hour24 h pm)) +:+ ":"
                      +:+ JS.padStart0 2 (JS.toString m) +:+ ":00")
                   = clock_date h m pm))
                [true; false])
              (seqZ 0 100))
            (seqZ 0 100) = true) as Hall.
  { vm_compute. reflexivity. }
  rewrite forallb_forall in Hall.
  specialize (Hall h). rewrite forallb_forall in Hall.
  specialize (Hall ltac:(apply list_elem_of_In, elem_of_seqZ; lia) m).
  rewrite forallb_forall in Hall.
  specialize (Hall ltac:(apply list_elem_of_In, elem_of_seqZ; lia) pm
                   ltac:(destruct pm; simpl; auto)).
  by apply bool_decide_eq_true in Hall.
Qed.

Lemma modifier_lower x y :
  is_am_pm x y = true →
  JS.toLowerCase (JS.str [x; y]) = "am"
  ∨ JS.toLowerCase (JS.str [x; y]) = "pm".
Proof.
  rewrite is_am_pm_spec, !elem_of_cons, !elem_of_nil.
  intros [[->|[->|[->|[->|[]]]]] [->|[->|[]]]]; vm_compute; auto.
Qed.

Lemma inlineCourseTime_value time12h hourStr minuteStr modifier :
  time_regex (JS.trim time12h) = Some (hourStr, minuteStr, modifier) →
  inlineCourseTime (Some time12h)
  = inr (clock_date (JS.parseInt10 (JS.chars hourStr))
                    (JS.parseInt10 (JS.chars minuteStr))
                    (String.eqb (JS.toLowerCase modifier) "pm")).
Proof.
  intros Hre. unfold inlineCourseTime, convertTo24Hour. rewrite Hre.
  f_equal.
  set (h := JS.parseInt10 (JS.chars hourStr)).
  set (m := JS.parseInt10 (JS.chars minuteStr)).
  assert (Hb : 0 <= h < 100 ∧ 0 <= m < 100
               ∧ (JS.toLowerCase modifier = "am"
                  ∨ JS.toLowerCase modifier = "pm")).
  { unfold time_regex in Hre. subst h m.
    destruct (JS.chars (JS.trim time12h))
      as [|a [|b [|c [|d [|e [|f [|g' [|? ?]]]]]]]]; try discriminate.
    - destruct (_ && _) eqn:E in Hre; [|discriminate].
      injection Hre as <- <- <-.
      rewrite !andb_true_iff in E. destruct E as [[[[H1 _] H2] H3] H4].
      apply digit_val_range in H1, H2, H3. unfold JS.chars, JS.parseInt10.
      cbn [fold_left String.list_ascii_of_string].
      split; [lia|]. split; [lia|]. by apply (modifier_lower e f).
    - destruct (_ && _) eqn:E in Hre; [|discriminate].
      injection Hre as <- <- <-.
      rewrite !andb_true_iff in E. destruct E as [[[[[H1 H1'] _] H2] H3] H4].
      apply digit_val_range in H1, H1', H2, H3. unfold JS.chars, JS.parseInt10.
      cbn [fold_left String.list_ascii_of_string].
      split; [lia|]. split; [lia|]. by apply (modifier_lower f g'). }
  destruct Hb as (Hh & Hm & Hmod). clearbody h m.
  rewrite <- (printed_clock_date h m _ Hh Hm). do 3 f_equal.
  f_equal. unfold hour24. destruct Hmod as [E|E]; rewrite E.
  - change (String.eqb "am" "pm") with false.
    change (String.eqb "am" "am") with true.
    by destruct (Z.eqb_spec h 12) as [->|?].
  - change (String.eqb "pm" "pm") with true.
    change (String.eqb "pm" "am") with false.
    by destruct (Z.eqb_spec h 12) as [->|?].
Qed.

(** X3 — A clock text within the 12-hour ranges gives its time of day.
    For a text of the expected shape whose hour is from 1 to 12 and whose
    minute is at most 59, the date the scheduler builds is valid and lies
    the usual number of minutes after midnight: the hour modulo 12, plus
    12 for pm, times 60, plus the minute; it is an instant of the
    reference day. *)
Theorem clock_text_in_range time12h hourStr minuteStr modifier :
  time_regex (JS.trim time12h) = Some (hourStr, minuteStr, modifier) →
  1 <= JS.parseInt10 (JS.chars hourStr) <= 12 →
  JS.parseInt10 (JS.chars minuteStr) <= 59 →
  let minutesOfDay :=
    (JS.parseInt10 (JS.chars hourStr) mod 12
     + (if String.eqb (JS.toLowerCase modifier) "pm" then 12 else 0)) * 60
    + JS.parseInt10 (JS.chars minuteStr) in
  inlineCourseTime (Some time12h) = inr (JS.Instant (minutesOfDay * 60000))
  ∧ 0 <= minutesOfDay < 24 * 60.
Proof.
  intros Hre Hh Hm. rewrite (inlineCourseTime_value _ _ _ _ Hre).
  assert (0 <= JS.parseInt10 (JS.chars minuteStr)) as Hm0.
  { unfold time_regex in Hre.
    destruct (JS.chars (JS.trim time12h))
      as [|a [|b [|c [|d [|e [|f [|g' [|? ?]]]]]]]]; try discriminate;
      (destruct (_ && _) eqn:E in Hre; [|discriminate]);
      injection Hre as <- <- <-; rewrite !andb_true_iff in E.
    - destruct E as [[[_ H2] H3] _]. apply digit_val_range in H2, H3.
      unfold JS.chars, JS.parseInt10.
      cbn [fold_left String.list_ascii_of_string]. lia.
    - destruct E as [[[_ H2] H3] _]. apply digit_val_range in H2, H3.
      unfold JS.chars, JS.parseInt10.
      cbn [fold_left String.list_ascii_of_string]. lia. }
  generalize dependent (JS.parseInt10 (JS.chars hourStr)).
  generalize dependent (JS.parseInt10 (JS.chars minuteStr)).
  intros m Hm Hm0 h Hh. unfold clock_date, hour24.
  destruct (String.eqb (JS.toLowerCase modifier) "pm");
    destruct (Z.eqb_spec h 12) as [->|Hne]; simpl.
  - rewrite (proj2 (Z.leb_le m 59) Hm). simpl.
    change (12 `mod` 12) with 0. split; [do 2 f_equal|]; lia.
  - rewrite Z.mod_small by lia.
    rewrite (proj2 (Z.leb_le (h + 12) 23)) by lia.
    rewrite (proj2 (Z.leb_le m 59) Hm). simpl. split; [done|lia].
  - rewrite (proj2 (Z.leb_le m 59) Hm). simpl.
    change (12 `mod` 12) with 0. split; [do 2 f_equal|]; lia.
  - rewrite Z.mod_small by lia.
    rewrite (proj2 (Z.leb_le h 23)) by lia.
    rewrite (proj2 (Z.leb_le m 59) Hm). simpl.
    split; [do 2 f_equal|]; lia.
Qed.

Lemma clock_text_in_range_witness :
  inlineCourseTime (Some " 02:30PM")
  = inr (JS.Instant (((2 mod 12 + 12) * 60 + 30) * 60000))
  ∧ 0 <= (2 mod 12 + 12) * 60 + 30 < 24 * 60.
Proof.
  apply (clock_text_in_range " 02:30PM" "02" "30" "PM").
  - reflexivity.
  - vm_compute. split; discriminate.
  - vm_compute. discriminate.
Defined.

(** X4 — Which clock texts give a date.  For a text of the expected
    shape the date the scheduler builds is valid exactly when the hour it
    stands for (12am is hour 0, 12pm hour 12, any other pm hour twelve
    later) is at most 23 and the minute at most 59, or the hour is 24 and
    the minute 0; every other text of the shape gives an invalid date. *)
Theorem clock_text_validity time12h hourStr minuteStr modifier :
  time_regex (JS.trim time12h) = Some (hourStr, minuteStr, modifier) →
  let h := hour24 (JS.parseInt10 (JS.chars hourStr))
                  (String.eqb (JS.toLowerCase modifier) "pm") in
  let m := JS.parseInt10 (JS.chars minuteStr) in
  (inlineCourseTime (Some time12h) = inr (JS.Instant ((h * 60 + m) * 60000))
   ∧ (h <= 23 ∧ m <= 59 ∨ h = 24 ∧ m = 0))
  ∨ (inlineCourseTime (Some time12h) = inr JS.InvalidDate
     ∧ ¬ (h <= 23 ∧ m <= 59 ∨ h = 24 ∧ m = 0)).
Proof.
  intros Hre h m. rewrite (inlineCourseTime_value _ _ _ _ Hre).
  unfold clock_date. fold h m.
  destruct (Z.leb_spec h 23), (Z.leb_spec m 59), (Z.eqb_spec h 24),
    (Z.eqb_spec m 0); simpl; (left; split; [done|lia]) || (right; split; [done|lia]).
Qed.

Lemma clock_text_validity_witness :
  (inlineCourseTime (Some "24:00am")
   = inr (JS.Instant ((24 * 60 + 0) * 60000))
   ∧ (24 <= 23 ∧ 0 <= 59 ∨ 24 = 24 ∧ 0 = 0))
  ∨ (inlineCourseTime (Some "24:00am") = inr JS.InvalidDate
     ∧ ¬ (24 <= 23 ∧ 0 <= 59 ∨ 24 = 24 ∧ 0 = 0)).
Proof.
  apply (clock_text_validity "24:00am" "24" "00" "am"). reflexivity.
Defined.

(* ===================================================================== *)
(** * The two sides of a time range *)
(* ===================================================================== *)

Lemma chars_append a b : JS.chars (a +:+ b) = JS.chars a ++ JS.chars b.
Proof.
  unfold JS.chars. induction a as [|c a IH]; simpl; [done|]. by rewrite IH.
Qed.

Lemma starts_with_sep_false (l : list ascii) :
  "-"%char ∉ l → JS.starts_with (JS.chars " - ") l = false.
Proof.
  intros Hl. change (JS.chars " - ") with [" "; "-"; " "]%char.
  destruct l as [|a [|b l]]; cbn [JS.starts_with]; [done| |].
  - by destruct (Ascii.eqb " " a).
  - destruct (Ascii.eqb " " a); [|done].
    destruct (Ascii.eqb_spec "-" b) as [<-|?]; [|done].
    exfalso. apply Hl. right. left.
Qed.

Lemma split_go_plain acc (l : list ascii) :
  "-"%char ∉ l →
  JS.split_go (JS.chars " - ") 0 acc l = [JS.str (rev acc ++ l)].
Proof.
  revert acc. induction l as [|c l IH]; intros acc Hl.
  - simpl. by rewrite app_nil_r.
  - cbn [JS.split_go]. rewrite (starts_with_sep_false _ Hl).
    rewrite IH.
    + simpl. by rewrite <- app_assoc.
    + intros H. apply Hl. by right.
Qed.

Lemma split_go_sep acc (a b : list ascii) :
  "-"%char ∉ a → "-"%char ∉ b →
  JS.split_go (JS.chars " - ") 0 acc (a ++ JS.chars " - " ++ b)
  = [JS.str (rev acc ++ a); JS.str b].
Proof.
  intros Ha Hb. revert acc. induction a as [|c a IH]; intros acc.
  - change (JS.chars " - ") with [" "; "-"; " "]%char.
    simpl. rewrite app_nil_r. f_equal.
    destruct b as [|x b]; [done|].
    apply (split_go_plain [] (x :: b) Hb).
  - assert (JS.starts_with (JS.chars " - ")
              ((c :: a) ++ JS.chars " - " ++ b) = false) as E.
    { change (JS.chars " - ") with [" "; "-"; " "]%char.
      destruct a as [|x a]; cbn [JS.starts_with app].
      - by destruct (Ascii.eqb " " c).
      - destruct (Ascii.eqb " " c); [|done].
        destruct (Ascii.eqb_spec "-" x) as [<-|?]; [|done].
        exfalso. apply Ha. right. left. }
    change ((c :: a) ++ JS.chars " - " ++ b)
      with (c :: (a ++ JS.chars " - " ++ b)) in *.
    cbn [JS.split_go]. rewrite E, IH.
    + simpl. by rewrite <- app_assoc.
    + intros H. apply Ha. by right.
Qed.

(** X5 — The two sides of a time range.  For a text made of a start, the
    separator of a space, a dash and a space, and an end, neither side
    holding a dash, [parseCourseTimes] parses the start, then the end, and
    returns the two dates; the first exception ends it. *)
Theorem time_range_sides parse start end_ :
  "-"%char ∉ JS.chars start → "-"%char ∉ JS.chars end_ →
  JS.split " - " (start +:+ " - " +:+ end_) = [start; end_]
  ∧ parseCourseTimes parse (start +:+ " - " +:+ end_)
    = match parse (Some start) with
      | inl e => inl e
      | inr startTime =>
          match parse (Some end_) with
          | inl e => inl e
          | inr endTime => inr (startTime, endTime)
          end
      end.
Proof.
  intros Hs He.
  assert (JS.split " - " (start +:+ " - " +:+ end_) = [start; end_]) as E.
  { unfold JS.split. rewrite !chars_append.
    rewrite (split_go_sep [] _ _ Hs He). simpl. by rewrite !str_chars. }
  split; [done|]. unfold parseCourseTimes. by rewrite E.
Qed.

Lemma time_range_sides_witness :
  JS.split " - " ("9:00am" +:+ " - " +:+ "10:30am") = ["9:00am"; "10:30am"]
  ∧ parseCourseTimes inlineCourseTime ("9:00am" +:+ " - " +:+ "10:30am")
    = match inlineCourseTime (Some "9:00am") with
      | inl e => inl e
      | inr startTime =>
          match inlineCourseTime (Some "10:30am") with
          | inl e => inl e
          | inr endTime => inr (startTime, endTime)
          end
      end.
Proof.
  apply (time_range_sides inlineCourseTime "9:00am" "10:30am").
  - apply (bool_decide_unpack _). vm_compute. exact I.
  - apply (bool_decide_unpack _). vm_compute. exact I.
Defined.

(** X6 — A time text without a dash never parses.  Such a text has no
    separator, so it is its own start part and there is no end part: in
    [filterCourseList] its parsing throws the invalid-format error of the
    whole text when the text is not a clock text of the expected shape,
    and a type error, for the missing end, when it is. *)
Theorem time_without_dash timeRange :
  "-"%char ∉ JS.chars timeRange →
  JS.split " - " timeRange = [timeRange]
  ∧ (¬ TimeShape (JS.trim timeRange) →
     parseCourseTimes inlineCourseTime timeRange
     = inl (InvalidTimeFormat timeRange))
  ∧ (TimeShape (JS.trim timeRange) →
     parseCourseTimes inlineCourseTime timeRange = inl TypeError).
Proof.
  intros Hd.
  assert (JS.split " - " timeRange = [timeRange]) as E.
  { unfold JS.split. rewrite (split_go_plain [] _ Hd). simpl.
    by rewrite str_chars. }
  split; [done|]. split.
  - intros Hn. by eapply parseCourseTimes_bad_start.
  - intros Hy. unfold parseCourseTimes. rewrite E. simpl.
    by destruct (convertTo24Hour_value _ Hy) as [t ->].
Qed.

Lemma time_without_dash_witness :
  JS.split " - " "9:00am" = ["9:00am"]
  ∧ (¬ TimeShape (JS.trim "9:00am") →
     parseCourseTimes inlineCourseTime "9:00am"
     = inl (InvalidTimeFormat "9:00am"))
  ∧ (TimeShape (JS.trim "9:00am") →
     parseCourseTimes inlineCourseTime "9:00am" = inl TypeError).
Proof.
  apply (time_without_dash "9:00am").
  apply (bool_decide_unpack _). vm_compute. exact I.
Defined.

(* ===================================================================== *)
(** * The index during the search *)
(* ===================================================================== *)

(** X7 — Committed intervals never overlap.  For an input object, after
    every write the search of [filterCourseList] makes, any two intervals
    at different positions of the array the index holds for a day do not
    overlap: not both the start of the one before the end of the other
    and its end after the other's start. *)
Theorem index_never_overlaps courseList :
  CourseList_wf courseList →
  Forall (fun ev =>
            ∀ st, event_state ev = Some st →
            ∀ day scheduledTimes i j t1 t2,
              scheduledTimesPerDay st !! day = Some scheduledTimes →
              scheduledTimes !! i = Some t1 →
              scheduledTimes !! j = Some t2 →
              i ≠ j →
              ¬ (JS.lt (ScheduledTime.start t1) (ScheduledTime.end_ t2) = true
                 ∧ JS.gt (ScheduledTime.end_ t1) (ScheduledTime.start t2)
                   = true))
         (filterCourseList_log courseList).
Proof.
  intros Hwf. unfold filterCourseList_log.
  destruct (filterCourseList_run courseList) as [log r] eqn:E. simpl.
  apply filterCourseList_run_inv in E
    as [(e & _ & -> & _)|(units & r' & Hb & Hrun & _)]; [constructor|].
  destruct (search_run _ _ _ _ Hwf Hb Hrun) as [[Hs _ _ _] _].
  eapply Forall_impl; [exact Hs|]. simpl.
  intros ev H st Hst day ts i j t1 t2 Hd Hi Hj Hne.
  destruct (H st Hst) as [H1 _ _ H4].
  apply (keyed_positions compatible
           (times_of (scheduledTimesPerDay st)) weekdays day day i j t1 t2
           compatible_sym weekdays_NoDup H4).
  - apply H1. by rewrite Hd.
  - apply H1. by rewrite Hd.
  - unfold times_of. by rewrite Hd.
  - unfold times_of. by rewrite Hd.
  - congruence.
  - done.
Qed.

Lemma index_never_overlaps_witness :
  Forall (fun ev =>
            ∀ st, event_state ev = Some st →
            ∀ day scheduledTimes i j t1 t2,
              scheduledTimesPerDay st !! day = Some scheduledTimes →
              scheduledTimes !! i = Some t1 →
              scheduledTimes !! j = Some t2 →
              i ≠ j →
              ¬ (JS.lt (ScheduledTime.start t1) (ScheduledTime.end_ t2) = true
                 ∧ JS.gt (ScheduledTime.end_ t1) (ScheduledTime.start t2)
                   = true))
         (filterCourseList_log backtrack_input).
Proof.
  apply index_never_overlaps.
  apply (bool_decide_unpack _). vm_compute. exact I.
Defined.

(* ===================================================================== *)
(** * Commit and uncommit *)
(* ===================================================================== *)


(* ===================================================================== *)
(** * What [scheduleUnits] promises its caller *)
(* ===================================================================== *)



(* ===================================================================== *)
(** * Grouping the sessions of a unit *)
(* ===================================================================== *)

Lemma push_group_split groups c g :
  push_group groups c = Some g →
  ∃ pre cs0 post,
    groups = pre ++ (Course.activity c, cs0) :: post
    ∧ g = pre ++ (Course.activity c, cs0 ++ [c]) :: post.
Proof.
  revert g. induction groups as [|[k0 cs0] groups IH]; intros g; simpl;
    [done|].
  destruct (String.eqb k0 (Course.activity c)) eqn:E.
  - apply String.eqb_eq in E as ->. intros [= <-]. by exists [], cs0, groups.
  - destruct (push_group groups c) as [g'|]; [|done]. simpl. intros [= <-].
    destruct (IH g' eq_refl) as (pre & cs1 & post & -> & ->).
    by exists ((k0, cs0) :: pre), cs1, post.
Qed.

Lemma filter_none {A} (P : A -> Prop) `{∀ x, Decision (P x)} (l : list A) :
  (∀ x, x ∈ l → ¬ P x) → filter P l = [].
Proof.
  induction l as [|x l IH]; intros Hl; [done|].
  rewrite filter_cons, decide_False by (apply Hl; left).
  apply IH. intros y ?. apply Hl. by right.
Qed.

Lemma group_step_filter seen groups c groups' :
  grouped seen groups →
  (∀ k cs, (k, cs) ∈ groups →
           cs = filter (fun x => Course.activity x = k) seen ∧ cs ≠ []) →
  group_step (inr groups) c = inr groups' →
  ∀ k cs, (k, cs) ∈ groups' →
          cs = filter (fun x => Course.activity x = k) (seen ++ [c])
          ∧ cs ≠ [].
Proof.
  intros (G1 & G2 & _) Hg. unfold group_step.
  assert (Hother : ∀ k cs, (k, cs) ∈ groups → k ≠ Course.activity c →
            cs = filter (fun x => Course.activity x = k) (seen ++ [c])
            ∧ cs ≠ []).
  { intros k cs Hin Hk. destruct (Hg k cs Hin) as [-> Hne].
    rewrite filter_app, filter_cons, filter_nil, decide_False by done.
    by rewrite app_nil_r. }
  destruct (push_group groups c) as [g|] eqn:E.
  - intros [= <-] k cs Hin.
    apply push_group_split in E as (pre & cs0 & post & -> & ->).
    rewrite fmap_app, fmap_cons in G1. simpl in G1.
    apply NoDup_app in G1 as (_ & Hpre & Hpost).
    apply NoDup_cons in Hpost as [Hpost _].
    apply elem_of_app in Hin as [Hin|Hin];
      [|apply elem_of_cons in Hin as [[= -> ->]|Hin]].
    + apply Hother; [apply elem_of_app; by left|].
      intros ->. apply (Hpre (Course.activity c)); [|left].
      apply list_elem_of_fmap. by exists (Course.activity c, cs).
    + destruct (Hg (Course.activity c) cs0) as [-> _].
      { apply elem_of_app. right. left. }
      rewrite filter_app, filter_cons, filter_nil, decide_True by done.
      split; [done|]. intros H. by apply app_eq_nil in H as [_ ?].
    + apply Hother; [apply elem_of_app; right; by right|].
      intros ->. apply Hpost. apply list_elem_of_fmap.
      by exists (Course.activity c, cs).
  - apply push_group_None in E. case_bool_decide; [done|].
    intros [= <-] k cs Hin. apply elem_of_app in Hin as [Hin|Hin].
    + apply Hother; [done|]. intros ->. apply E.
      apply list_elem_of_fmap. by exists (Course.activity c, cs).
    + apply list_elem_of_singleton in Hin as [= -> ->].
      rewrite filter_app, filter_cons, filter_nil, decide_True by done.
      rewrite filter_none; [done|].
      intros x Hx Ex. apply E, G2. rewrite <- Ex.
      apply list_elem_of_fmap. eauto.
Qed.

Lemma fold_group_step_filter courses seen groups groups' :
  grouped seen groups →
  (∀ k cs, (k, cs) ∈ groups →
           cs = filter (fun x => Course.activity x = k) seen ∧ cs ≠ []) →
  fold_left group_step courses (inr groups) = inr groups' →
  ∀ k cs, (k, cs) ∈ groups' →
          cs = filter (fun x => Course.activity x = k) (seen ++ courses)
          ∧ cs ≠ [].
Proof.
  revert seen groups. induction courses as [|c courses IH];
    intros seen groups HG Hf; cbn [fold_left].
  - intros [= <-]. by rewrite app_nil_r.
  - destruct (group_step (inr groups) c) as [e|g] eqn:E.
    { by rewrite fold_group_step_inl. }
    intros H.
    rewrite (assoc_L _ seen [c] courses
              : seen ++ c :: courses = (seen ++ [c]) ++ courses).
    eapply IH; [| |done].
    + by eapply group_step_grouped.
    + by eapply group_step_filter.
Qed.

(** X10 — Grouping loses and invents nothing.  When the grouping of a
    unit's sessions does not throw, the groups carry pairwise distinct
    tags, exactly the activity tags that occur among the sessions, and the
    group of a tag is the list of the sessions with that tag, in the order
    of the input; no group is empty. *)
Theorem activityGroups_partition courses groups :
  activityGroups courses = inr groups →
  NoDup (groups.*1)
  ∧ (∀ k, k ∈ groups.*1 ↔ k ∈ map Course.activity courses)
  ∧ ∀ k cs, (k, cs) ∈ groups →
            cs = filter (fun c => Course.activity c = k) courses ∧ cs ≠ [].
Proof.
  intros H. destruct (activityGroups_grouped _ _ H) as (G1 & G2 & _).
  split; [done|]. split; [done|].
  apply (fold_group_step_filter courses [] [] groups); [| |done].
  - split; [constructor|]. split; [done|].
    intros k cs c Hin. by apply elem_of_nil in Hin.
  - intros k cs Hin. by apply elem_of_nil in Hin.
Qed.

Lemma activityGroups_partition_witness :
  ∃ groups,
    activityGroups (UnitData.courses (unit_of "CS101"
        [session "CS101" "LEC" "MON" "9:00am - 10:00am";
         session "CS101" "TUT" "TUE" "9:00am - 10:00am";
         session "CS101" "LEC" "WED" "9:00am - 10:00am"]).2) = inr groups
    ∧ NoDup (groups.*1)
    ∧ (∀ k, k ∈ groups.*1
            ↔ k ∈ map Course.activity
                  [session "CS101" "LEC" "MON" "9:00am - 10:00am";
                   session "CS101" "TUT" "TUE" "9:00am - 10:00am";
                   session "CS101" "LEC" "WED" "9:00am - 10:00am"])
    ∧ ∀ k cs, (k, cs) ∈ groups →
              cs = filter (fun c => Course.activity c = k)
                     [session "CS101" "LEC" "MON" "9:00am - 10:00am";
                      session "CS101" "TUT" "TUE" "9:00am - 10:00am";
                      session "CS101" "LEC" "WED" "9:00am - 10:00am"]
              ∧ cs ≠ [].
Proof.
  eexists. split; [vm_compute; reflexivity|].
  apply activityGroups_partition. vm_compute. reflexivity.
Defined.

Lemma fold_group_step_throws courses groups :
  (∀ k, k ∈ groups.*1 → k ∉ Object_prototype_keys) →
  Exists (fun c => Course.activity c ∈ Object_prototype_keys) courses →
  fold_left group_step courses (inr groups) = inl TypeError.
Proof.
  revert groups. induction courses as [|c courses IH]; intros groups Hk Hex.
  { by apply Exists_nil in Hex. }
  cbn [fold_left].
  destruct (decide (Course.activity c ∈ Object_prototype_keys)) as [Hc|Hc].
  - assert (group_step (inr groups) c = inl TypeError) as ->.
    { unfold group_step. destruct (push_group groups c) as [g|] eqn:E.
      - apply push_group_Some in E as (_ & E & _). by apply Hk in E.
      - by rewrite bool_decide_eq_true_2. }
    apply fold_group_step_inl.
  - apply Exists_cons in Hex as [?|Hex]; [done|].
    assert (∃ g, group_step (inr groups) c = inr g
                 ∧ ∀ k, k ∈ g.*1 → k ∉ Object_prototype_keys) as (g & -> & Hg).
    { unfold group_step. destruct (push_group groups c) as [g|] eqn:E.
      - exists g. split; [done|].
        apply push_group_Some in E as (-> & _). done.
      - rewrite bool_decide_eq_false_2 by done. eexists. split; [done|].
        intros k. rewrite fmap_app, elem_of_app. simpl.
        intros [?|Hin]; [auto|]. by apply list_elem_of_singleton in Hin as ->. }
    by apply IH.
Qed.

Lemma fold_group_step_error courses acc e :
  fold_left group_step courses acc = inl e → acc = inl e ∨ e = TypeError.
Proof.
  revert acc. induction courses as [|c courses IH]; intros acc; simpl.
  { by left. }
  intros H. destruct (IH _ H) as [E|?]; [|by right].
  destruct acc as [e'|groups]; [by left|]. right.
  unfold group_step in E. destruct (push_group groups c); [done|].
  case_bool_decide; congruence.
Qed.

Lemma buildUnit_error entry e : buildUnit entry = inl e → e = TypeError.
Proof.
  unfold buildUnit.
  destruct (activityGroups (UnitData.courses entry.2)) as [e'|g] eqn:E;
    [|done].
  intros [= <-]. by destruct (fold_group_step_error _ _ _ E).
Qed.

Lemma buildUnits_error entries e : buildUnits entries = inl e → e = TypeError.
Proof.
  induction entries as [|entry entries IH]; simpl; [done|].
  destruct (buildUnit entry) as [e'|u] eqn:E.
  - intros [= <-]. by eapply buildUnit_error.
  - destruct (buildUnits entries) as [e'|us]; [|done].
    intros [= <-]. by apply IH.
Qed.

Lemma buildUnits_throws entries entry :
  entry ∈ entries → buildUnit entry = inl TypeError →
  buildUnits entries = inl TypeError.
Proof.
  induction entries as [|entry0 entries IH]; intros Hin Hb.
  { by apply elem_of_nil in Hin. }
  simpl. apply elem_of_cons in Hin as [<-|Hin]; [by rewrite Hb|].
  destruct (buildUnit entry0) as [e|u] eqn:E.
  - by rewrite (buildUnit_error _ _ E).
  - by rewrite (IH Hin Hb).
Qed.

(** X11 — When the grouping throws.  The grouping of a unit's sessions
    throws exactly when some session carries an activity tag that names a
    member every object inherits, such as constructor or toString; what it
    throws is a type error, and [filterCourseList] on an input holding
    such a session throws it too, before any search. *)
Theorem activityGroups_throws courses :
  (activityGroups courses = inl TypeError
   ↔ Exists (fun c => Course.activity c ∈ Object_prototype_keys) courses)
  ∧ (activityGroups courses = inl TypeError
     ∨ ∃ groups, activityGroups courses = inr groups)
  ∧ ∀ courseList unitCode unitName,
      (unitCode,
       {| UnitData.unitName := unitName; UnitData.courses := courses |})
      ∈ courseList →
      Exists (fun c => Course.activity c ∈ Object_prototype_keys) courses →
      filterCourseList_run courseList = ([], inl TypeError).
Proof.
  assert (Hiff : activityGroups courses = inl TypeError
            ↔ Exists (fun c => Course.activity c ∈ Object_prototype_keys)
                     courses).
  { split.
    - intros H. destruct (decide (Exists
          (fun c => Course.activity c ∈ Object_prototype_keys) courses))
        as [?|Hn]; [done|].
      destruct (fold_group_step_total courses []) as [g Hg].
      + intros c Hc Hp. apply Hn, Exists_exists. eauto.
      + unfold activityGroups in H. congruence.
    - apply fold_group_step_throws. intros k Hk. by apply elem_of_nil in Hk. }
  assert (Hor : activityGroups courses = inl TypeError
            ∨ ∃ groups, activityGroups courses = inr groups).
  { destruct (decide (Exists
        (fun c => Course.activity c ∈ Object_prototype_keys) courses))
      as [Hy|Hn].
    - left. by apply Hiff.
    - right. apply fold_group_step_total.
      intros c Hc Hp. apply Hn, Exists_exists. eauto. }
  split; [done|]. split; [done|].
  intros courseList unitCode unitName Hin Hex.
  apply Hiff in Hex. unfold filterCourseList_run.
  rewrite <- (Object_entries_perm courseList) in Hin.
  rewrite (buildUnits_throws _ _ Hin); [done|].
  unfold buildUnit. simpl. by rewrite Hex.
Qed.

Lemma activityGroups_throws_witness :
  filterCourseList_run
    [unit_of "CS101" [session "CS101" "toString" "MON" "9:00am - 10:00am"]]
  = ([], inl TypeError).
Proof.
  refine (proj2 (proj2 (activityGroups_throws
                          [session "CS101" "toString" "MON" "9:00am - 10:00am"]))
                _ "CS101" "CS101" _ _).
  - left.
  - apply Exists_cons_hd. apply (bool_decide_unpack _). vm_compute. exact I.
Defined.

(* ===================================================================== *)
(** * What the search tries and what it throws *)
(* ===================================================================== *)

Section Tried.
Variable parse : option string -> result JS.Date.
Variable P : string -> Course.t -> Prop.

Lemma TryRun_tried next unitCode courses st log r :
  (∀ st log r, next st = (log, r) → Forall (tried_in P) log) →
  TryRun parse next unitCode courses st log r →
  (∀ c, c ∈ courses → P unitCode c) →
  Forall (tried_in P) log.
Proof.
  intros Hnext. induction 1 as
    [ st | | | c more st s e ts log r _ _ _ _ IH | |
    | | | c more st s e ts st1 log1 st2 st3 log r _ _ _ _ Hn _ _ IH ];
    intros HP;
    repeat match goal with
      | |- Forall _ [] => constructor
      | |- Forall _ (Tried _ _ :: _) => constructor; [apply HP; left|]
      | |- Forall _ (Scheduled _ :: _) => constructor; [exact I|]
      | |- Forall _ (Unscheduled _ :: _) => constructor; [exact I|]
      | |- Forall _ (_ ++ _) => apply Forall_app; split
      | H : next _ = (?l, _) |- Forall _ ?l => exact (Hnext _ _ _ H)
      end.
  - apply IH. intros c' ?. apply HP. by right.
  - apply IH. intros c' ?. apply HP. by right.
Qed.

Lemma scheduleActivities_tried nextUnit unitCode activities st log r :
  (∀ st log r, nextUnit st = (log, r) → Forall (tried_in P) log) →
  (∀ a c, a ∈ activities → c ∈ Activity.courses a → P unitCode c) →
  scheduleActivities parse nextUnit unitCode activities st = (log, r) →
  Forall (tried_in P) log.
Proof.
  intros Hnext. revert st log r.
  induction activities as [|a acts IH]; intros st log r HP Hrun.
  - by eapply Hnext.
  - simpl in Hrun. apply tryCourses_run in Hrun.
    eapply TryRun_tried; [|exact Hrun|].
    + intros st0 log0 r0. apply IH. intros a' c ?. apply HP. by right.
    + intros c. apply HP. left.
Qed.

Lemma scheduleUnitsFrom_tried units st log r :
  (∀ u a c, u ∈ units → a ∈ Unit.activities u → c ∈ Activity.courses a →
            P (Unit.unitCode u) c) →
  scheduleUnitsFrom parse units st = (log, r) →
  Forall (tried_in P) log.
Proof.
  revert st log r. induction units as [|u later IH]; intros st log r HP Hrun.
  - injection Hrun as <- _. constructor.
  - cbn [scheduleUnitsFrom] in Hrun.
    apply bind_run in Hrun
      as [(e & Hup & _)|(log1 & [] & st0 & log2 & Hup & Hrun & ->)].
    { apply update_run in Hup as [(? & [=] & _)|(? & _ & _ & [=])]. }
    apply update_run in Hup as [(e & [=] & _)|(st0' & _ & -> & _)].
    constructor; [exact I|].
    eapply scheduleActivities_tried; [| |exact Hrun].
    + intros st1 log1 r1. apply IH. intros u' a c ?. apply HP. by right.
    + intros a c Ha. apply (HP u a c); [left|].
      by rewrite <- (sortActivities_perm (Unit.activities u)).
Qed.

End Tried.

Section Thrown.
Variable parse : option string -> result JS.Date.

Lemma thrown_by_trial_mono log log' e :
  (∀ ev, ev ∈ log → ev ∈ log') →
  thrown_by_trial parse log e → thrown_by_trial parse log' e.
Proof.
  intros Hsub [?|(k & c & Hin & Hp)]; [by left|].
  right. exists k, c. auto.
Qed.

Lemma TryRun_thrown next unitCode courses st log r :
  (∀ st log e, next st = (log, inl e) → thrown_by_trial parse log e) →
  TryRun parse next unitCode courses st log r →
  ∀ e, r = inl e → thrown_by_trial parse log e.
Proof.
  intros Hnext. induction 1 as
    [ st
    | c more st e0 Hp
    | c more st s e0 Hp Hd
    | c more st s e0 ts log r Hp Hd Hc _ IH
    | c more st s e0 ts e' Hp Hd Hc Hs
    | c more st s e0 ts st1 log1 e' Hp Hd Hc Hs Hn
    | c more st s e0 ts st1 log1 st2 Hp Hd Hc Hs Hn
    | c more st s e0 ts st1 log1 st2 e' Hp Hd Hc Hs Hn Hu
    | c more st s e0 ts st1 log1 st2 st3 log r Hp Hd Hc Hs Hn Hu _ IH ];
    intros e Hr; try discriminate.
  - injection Hr as <-. right. exists unitCode, c. split; [left|done].
  - injection Hr as <-. by left.
  - eapply thrown_by_trial_mono; [|by apply IH]. intros ev ?. by right.
  - injection Hr as <-. left. unfold scheduleCourse in Hs.
    destruct (finalSchedule st !! unitCode); congruence.
  - injection Hr as <-.
    eapply thrown_by_trial_mono; [|by eapply Hnext].
    intros ev ?. right. by right.
  - injection Hr as <-. left. unfold unscheduleCourse in Hu.
    destruct (finalSchedule st2 !! unitCode); congruence.
  - eapply thrown_by_trial_mono; [|by apply IH]. intros ev ?.
    right. right. apply elem_of_app. right. by right.
Qed.

Lemma scheduleActivities_thrown nextUnit unitCode activities st log e :
  (∀ st log e, nextUnit st = (log, inl e) → thrown_by_trial parse log e) →
  scheduleActivities parse nextUnit unitCode activities st = (log, inl e) →
  thrown_by_trial parse log e.
Proof.
  intros Hnext. revert st log e.
  induction activities as [|a acts IH]; intros st log e Hrun.
  - by eapply Hnext.
  - simpl in Hrun. apply tryCourses_run in Hrun.
    eapply TryRun_thrown; [|exact Hrun|done]. exact IH.
Qed.

Lemma scheduleUnitsFrom_thrown units st log e :
  scheduleUnitsFrom parse units st = (log, inl e) →
  thrown_by_trial parse log e.
Proof.
  revert st log e. induction units as [|u later IH]; intros st log e Hrun.
  - discriminate.
  - cbn [scheduleUnitsFrom] in Hrun.
    apply bind_run in Hrun
      as [(e' & Hup & _)|(log1 & [] & st0 & log2 & Hup & Hrun & ->)].
    { apply update_run in Hup as [(? & [=] & _)|(? & _ & _ & [=])]. }
    eapply thrown_by_trial_mono;
      [|eapply scheduleActivities_thrown; [exact IH|exact Hrun]].
    intros ev ?. apply elem_of_app. by right.
Qed.

End Thrown.

Lemma convertTo24Hour_inl time12h e :
  convertTo24Hour time12h = inl e → e = InvalidTimeFormat time12h.
Proof.
  unfold convertTo24Hour.
  destruct (time_regex (JS.trim time12h)) as [[[? ?] ?]|]; congruence.
Qed.

Lemma parseCourseTimes_inl timeRange e :
  parseCourseTimes inlineCourseTime timeRange = inl e →
  e = TypeError
  ∨ ∃ part, part ∈ take 2 (JS.split " - " timeRange)
            ∧ e = InvalidTimeFormat part.
Proof.
  unfold parseCourseTimes, inlineCourseTime.
  destruct (JS.split " - " timeRange) as [|p0 [|p1 parts]]; simpl.
  - intros [= <-]. by left.
  - destruct (convertTo24Hour p0) as [e0|t0] eqn:E0.
    + intros [= <-]. right. exists p0. split; [left|].
      by apply convertTo24Hour_inl.
    + intros [= <-]. by left.
  - destruct (convertTo24Hour p0) as [e0|t0] eqn:E0.
    + intros [= <-]. right. exists p0. split; [left|].
      by apply convertTo24Hour_inl.
    + destruct (convertTo24Hour p1) as [e1|t1] eqn:E1; [|done].
      intros [= <-]. right. exists p1. split; [right; left|].
      by apply convertTo24Hour_inl.
Qed.

(** The sessions the search of [filterCourseList] tries are sessions of
    the input, each under the code of its unit. *)
Lemma tried_from_input courseList :
  Forall (tried_in (fun unitCode c =>
            ∃ unitData, (unitCode, unitData) ∈ courseList
                        ∧ c ∈ UnitData.courses unitData))
         (filterCourseList_log courseList).
Proof.
  unfold filterCourseList_log.
  destruct (filterCourseList_run courseList) as [log r] eqn:E. simpl.
  apply filterCourseList_run_inv in E
    as [(e & _ & -> & _)|(units & r' & Hb & Hrun & _)]; [constructor|].
  eapply scheduleUnitsFrom_tried; [|exact Hrun].
  intros u a c Hu Ha Hc. apply buildUnits_built in Hb.
  rewrite sortUnits_perm in Hu. apply list_elem_of_lookup in Hu as [i Hi].
  destruct (Forall2_lookup_r _ _ _ _ _ Hb Hi)
    as ([unitCode unitData] & He & Ec & _ & Hsess & _).
  simpl in *. rewrite Ec. exists unitData. split.
  - rewrite <- (Object_entries_perm courseList).
    by eapply list_elem_of_lookup_2.
  - by apply (Hsess a c).
Qed.

(** X12 — The search tries only sessions of the input.  Every session the
    search of [filterCourseList] tries is a session of the input, tried
    under the code of the unit that holds it. *)
Theorem tried_sessions_from_input courseList unitCode course :
  Tried unitCode course ∈ filterCourseList_log courseList →
  ∃ unitData, (unitCode, unitData) ∈ courseList
              ∧ course ∈ UnitData.courses unitData.
Proof.
  intros Hin. pose proof (tried_from_input courseList) as H.
  rewrite Forall_forall in H. exact (H _ Hin).
Qed.

Lemma tried_sessions_from_input_witness :
  ∃ unitData, ("B", unitData) ∈ clash_input
              ∧ clash_B ∈ UnitData.courses unitData.
Proof.
  apply (tried_sessions_from_input clash_input "B" clash_B).
  apply (bool_decide_unpack _). vm_compute. exact I.
Defined.

(** X13 — What [filterCourseList] throws.  An exception of
    [filterCourseList] is a type error, or the invalid-format error of the
    start part or the end part of the time text of a session of the
    input: the first or the second of the pieces the separator cuts the
    text into. *)
Theorem thrown_exceptions courseList e :
  filterCourseList courseList = inl e →
  e = TypeError
  ∨ ∃ unitCode unitData c part,
      (unitCode, unitData) ∈ courseList
      ∧ c ∈ UnitData.courses unitData
      ∧ part ∈ take 2 (JS.split " - " (Course.time c))
      ∧ e = InvalidTimeFormat part.
Proof.
  intros Hret. pose proof (tried_from_input courseList) as Htried.
  unfold filterCourseList, filterCourseList_log in *.
  destruct (filterCourseList_run courseList) as [log r] eqn:E. simpl in *.
  subst r. apply filterCourseList_run_inv in E
    as [(e' & Hb & _ & [= <-])|(units & r' & Hb & Hrun & Hr)].
  { left. by eapply buildUnits_error. }
  destruct r' as [e'|[[|] st]]; try discriminate. injection Hr as <-.
  destruct (scheduleUnitsFrom_thrown _ _ _ _ _ Hrun)
    as [?|(k & c & Hin & Hp)]; [by left|].
  destruct (parseCourseTimes_inl _ _ Hp) as [?|(part & Hpart & ->)];
    [by left|].
  right. rewrite Forall_forall in Htried.
  destruct (Htried _ Hin) as (unitData & ? & ?).
  by exists k, unitData, c, part.
Qed.

Lemma thrown_exceptions_witness :
  InvalidTimeFormat "9:00" = TypeError
  ∨ ∃ unitCode unitData c part,
      (unitCode, unitData) ∈ malformed_input
      ∧ c ∈ UnitData.courses unitData
      ∧ part ∈ take 2 (JS.split " - " (Course.time c))
      ∧ InvalidTimeFormat "9:00" = InvalidTimeFormat part.
Proof.
  apply (thrown_exceptions malformed_input (InvalidTimeFormat "9:00")).
  vm_compute. reflexivity.
Defined.

(* ===================================================================== *)
(** * The conflict check and the order of commitments *)
(* ===================================================================== *)



(* ===================================================================== *)
(** * The order of the sessions of an entry *)
(* ===================================================================== *)







(* ===================================================================== *)
(** * Units without sessions *)
(* ===================================================================== *)



